(** * Harmony token format: strict parser, tokenizer, detector and
      streaming extractor of [src/index.ts], embedded in Rocq.

    JavaScript strings are modelled by [string]: every [ascii] stands for
    one UTF-16 code unit in the range 0..255.  Indices and lengths are
    JavaScript numbers and are modelled by [Z], so that the [-1] returned
    by [indexOf] and the comparisons the code makes against [0] are
    written as in the source. *)

From Stdlib Require Import String Ascii List ZArith Lia Bool Arith.
Import ListNotations.

Local Open Scope string_scope.
Local Open Scope Z_scope.

(** ** JavaScript string primitives used by the library *)
Module Js.

Fixpoint drop (n : nat) (s : string) : string :=
  match n, s with
  | O, _ => s
  | S n', String _ s' => drop n' s'
  | S _, EmptyString => EmptyString
  end.

Fixpoint take (n : nat) (s : string) : string :=
  match n, s with
  | O, _ => EmptyString
  | S n', String c s' => String c (take n' s')
  | S _, EmptyString => EmptyString
  end.

(** Offset of the first occurrence of [p] in [s]. *)
Fixpoint find (p s : string) {struct s} : option nat :=
  if String.prefix p s then Some O
  else match s with
       | EmptyString => None
       | String _ s' => option_map S (find p s')
       end.

(** Offset of the last occurrence of [p] in [s]. *)
Fixpoint find_last (p s : string) {struct s} : option nat :=
  match s with
  | EmptyString => if String.prefix p s then Some O else None
  | String _ s' =>
      match find_last p s' with
      | Some k => Some (S k)
      | None => if String.prefix p s then Some O else None
      end
  end.

(** [s.length] *)
Definition len (s : string) : Z := Z.of_nat (String.length s).

(** Clamping of a position argument into [0 .. len]. *)
Definition clamp (l k : Z) : Z := Z.max 0 (Z.min k l).

(** Relative index resolution of [slice]: negative indices count from the end. *)
Definition rel_index (l k : Z) : Z :=
  if k <? 0 then Z.max (l + k) 0 else Z.min k l.

(** [s.startsWith(p, position)] *)
Definition startsWith (s p : string) (position : Z) : bool :=
  String.prefix p (drop (Z.to_nat (clamp (len s) position)) s).

(** [s.indexOf(p, position)] *)
Definition indexOf (s p : string) (position : Z) : Z :=
  let start := Z.to_nat (clamp (len s) position) in
  match find p (drop start s) with
  | Some k => Z.of_nat (start + k)
  | None => -1
  end.

(** [s.lastIndexOf(p)] *)
Definition lastIndexOf (s p : string) : Z :=
  match find_last p s with
  | Some k => Z.of_nat k
  | None => -1
  end.

(** [s.includes(p)] *)
Definition includes (s p : string) : bool :=
  match find p s with Some _ => true | None => false end.

(** [s.slice(a, b)] *)
Definition slice (s : string) (a b : Z) : string :=
  let from := rel_index (len s) a in
  let to := rel_index (len s) b in
  take (Z.to_nat (to - from)) (drop (Z.to_nat from) s).

(** [s.slice(a)] *)
Definition slice_from (s : string) (a : Z) : string :=
  drop (Z.to_nat (rel_index (len s) a)) s.

(** White space of [\s] and of [trim] among the code units 0..255:
    TAB, LF, VT, FF, CR, SPACE and NO-BREAK SPACE. *)
Definition is_space (c : ascii) : bool :=
  let n := nat_of_ascii c in
  ((9 <=? n) && (n <=? 13) || (n =? 32) || (n =? 160))%nat.

(** The character class [[a-z]]. *)
Definition is_lower (c : ascii) : bool :=
  let n := nat_of_ascii c in ((97 <=? n) && (n <=? 122))%nat.

(** The character class [[a-zA-Z]]. *)
Definition is_alpha (c : ascii) : bool :=
  let n := nat_of_ascii c in
  ((97 <=? n) && (n <=? 122) || (65 <=? n) && (n <=? 90))%nat.

Fixpoint trimStart (s : string) : string :=
  match s with
  | EmptyString => EmptyString
  | String c s' => if is_space c then trimStart s' else s
  end.

Fixpoint trimEnd (s : string) : string :=
  match s with
  | EmptyString => EmptyString
  | String c s' =>
      match trimEnd s' with
      | EmptyString => if is_space c then EmptyString else String c EmptyString
      | r => String c r
      end
  end.

(** [s.trim()] *)
Definition trim (s : string) : string := trimEnd (trimStart s).

(** Length of the longest prefix of [s] whose characters satisfy [f]. *)
Fixpoint span (f : ascii -> bool) (s : string) : nat :=
  match s with
  | EmptyString => O
  | String c s' => if f c then S (span f s') else O
  end.

(** [parts.join(sep)] *)
Definition join (parts : list string) (sep : string) : string :=
  String.concat sep parts.

(** Start offsets of the matches of a global regular expression that is the
    non-empty literal [p], scanned left to right without overlap, as
    [matchAll] and [match] with the [g] flag enumerate them. *)
Fixpoint literal_matches_from (fuel : nat) (p s : string) (base : nat)
  : list nat :=
  match fuel with
  | O => []
  | S fuel' =>
      match s with
      | EmptyString => []
      | String _ s' =>
          if String.prefix p s
          then base :: literal_matches_from fuel' p
                         (drop (String.length p) s) (base + String.length p)
          else literal_matches_from fuel' p s' (S base)
      end
  end.

Definition literal_matches (p s : string) : list nat :=
  literal_matches_from (String.length s) p s O.

End Js.

Import Js.

(** ** Data model *)

(** [HarmonyDelimiters]; the field [end] of the source is [end_] here. *)
Record HarmonyDelimiters : Type := {
  start : string;
  message : string;
  end_ : string
}.

Definition DEFAULT_DELIMS : HarmonyDelimiters :=
  {| start := "<|start|>"; message := "<|message|>"; end_ := "<|end|>" |}.

(** The fixed channel-declaration marker. *)
Definition CHANNEL_MARKER : string := "<|channel|>".

(** [class HarmonyError]: [code], the [Error] message and the optional
    [details] record, whose values are strings wherever the library
    builds one. *)
Record HarmonyError : Type := {
  code : string;
  error_message : string;
  details : option (list (string * string))
}.

(** Roles and channels are strings at run time; the closed sets are the
    two predicates below. *)
Definition isHarmonyRole (value : string) : bool :=
  (value =? "system")%string || (value =? "developer")%string ||
  (value =? "user")%string || (value =? "assistant")%string ||
  (value =? "tool")%string.

Definition isHarmonyChannel (value : string) : bool :=
  (value =? "message")%string || (value =? "reasoning")%string ||
  (value =? "tool")%string || (value =? "function")%string ||
  (value =? "error")%string.

(** The host's JSON built-ins over its values ([arguments: unknown]):
    [JSON.stringify] returns a string or [undefined], [JSON.parse]
    returns a value or throws. *)
Class JsonHost : Type := {
  json_value : Type;
  JSON_stringify : json_value -> option string;
  JSON_parse : string -> option json_value
}.

(** What a [catch] clause can receive. *)
Inductive Thrown : Type :=
| ThrownHarmonyError (e : HarmonyError)
| ThrownError (msg : string)
| ThrownString (s : string)
| ThrownOther.

Inductive Completion (A : Type) : Type :=
| Normal (a : A)
| Throw (t : Thrown).
Arguments Normal {A} a.
Arguments Throw {A} t.

(** String concatenation with a value that may be [undefined]. *)
Definition concat_undefined (s : string) (v : option string) : string :=
  match v with
  | Some t => s ++ t
  | None => s ++ "undefined"
  end.

Section DataModel.
Context {host : JsonHost}.

Record HarmonyToolCall : Type := {
  namespace : string;
  name : string;
  arguments : json_value
}.

(** [HarmonyContentChunk]: the [type] tag is the constructor; the
    [channel] of a tool call is the literal type ["tool"] and carries no
    information. *)
Inductive HarmonyContentChunk : Type :=
| TextChunk (text : string) (channel : string)
| ToolCallChunk (call : HarmonyToolCall).

Record HarmonyMessage : Type := {
  role : string;
  content : list HarmonyContentChunk
}.

Record HarmonyConversation : Type := {
  messages : list HarmonyMessage
}.

Record RenderOptions : Type := {
  delimiters : option HarmonyDelimiters
}.

Definition delims_or_default (delimiters : option HarmonyDelimiters)
  : HarmonyDelimiters :=
  match delimiters with
  | Some d => d
  | None => DEFAULT_DELIMS
  end.

(** ** renderConversation *)

Definition render_chunk (delims : HarmonyDelimiters)
  (chunk : HarmonyContentChunk) : list string :=
  [ message delims;
    match chunk with
    | TextChunk text channel => "text:" ++ channel ++ ":" ++ text
    | ToolCallChunk call =>
        let encodedArgs := JSON_stringify (arguments call) in
        concat_undefined
          ("tool:" ++ namespace call ++ ":" ++ name call ++ ":") encodedArgs
    end ].

Definition render_message (delims : HarmonyDelimiters) (m : HarmonyMessage)
  : list string :=
  (start delims ++ role m)
    :: (flat_map (render_chunk delims) (content m) ++ [end_ delims])%list.

(** [options?.delimiters] *)
Definition options_delimiters (options : option RenderOptions)
  : option HarmonyDelimiters :=
  match options with
  | Some o => delimiters o
  | None => None
  end.

Definition renderConversation (conversation : HarmonyConversation)
  (options : option RenderOptions) : list string :=
  let delims := delims_or_default (options_delimiters options) in
  flat_map (render_message delims) (messages conversation).

(** ** createParser: push and finish *)

Record ParseState : Type := {
  state_messages : list HarmonyMessage;
  current : option HarmonyMessage;
  lastStreamingChannel : option string;
  expectingPayload : option bool
}.

(** The state a parser is created with. *)
Definition createParser : ParseState :=
  {| state_messages := []; current := None;
     lastStreamingChannel := None; expectingPayload := None |}.

Definition raise (c m : string) (d : list (string * string)) : HarmonyError :=
  {| code := c; error_message := m; details := Some d |}.

Definition truthy (b : option bool) : bool :=
  match b with Some true => true | _ => false end.

Definition is_string (s : option string) : bool :=
  match s with Some _ => true | None => false end.

(** [push(token, delimiters)]: the state after the call, and the error
    thrown if any.  Every [throw] stands before the first assignment of
    its path, which the returned state records. *)
Definition push (state : ParseState) (token : string)
  (delimiters : option HarmonyDelimiters) : ParseState * option HarmonyError :=
  let delims := delims_or_default delimiters in
  if startsWith token (start delims) 0 then
    let roleRaw := slice_from token (len (start delims)) in
    if negb (isHarmonyRole roleRaw) then
      (state, Some (raise "INVALID_ROLE" ("Unknown role: " ++ roleRaw)
                      [("token", token); ("role", roleRaw)]))
    else
      ({| state_messages :=
            match current state with
            | Some currentMessage => (state_messages state ++ [currentMessage])%list
            | None => state_messages state
            end;
          current := Some {| role := roleRaw; content := [] |};
          lastStreamingChannel := None;
          expectingPayload := Some false |}, None)
  else if startsWith token CHANNEL_MARKER 0 then
    let channelName := slice_from token (len CHANNEL_MARKER) in
    (if 0 <? len channelName then
       {| state_messages := state_messages state;
          current := current state;
          lastStreamingChannel := Some channelName;
          expectingPayload := expectingPayload state |}
     else state, None)
  else if (token =? message delims)%string then
    ({| state_messages := state_messages state;
        current := current state;
        lastStreamingChannel := lastStreamingChannel state;
        expectingPayload := Some true |}, None)
  else if (token =? end_ delims)%string then
    ({| state_messages :=
          match current state with
          | Some currentMessage => (state_messages state ++ [currentMessage])%list
          | None => state_messages state
          end;
        current := None;
        lastStreamingChannel := None;
        expectingPayload := Some false |}, None)
  else
    match current state with
    | None =>
        (state, Some (raise "UNEXPECTED_TOKEN"
                        ("Content outside of a message: " ++ token)
                        [("token", token)]))
    | Some cur =>
        if startsWith token "text:" 0 then
          let after := slice_from token (len "text:") in
          let sep := indexOf after ":" 0 in
          if sep <? 0 then
            (state, Some (raise "INVALID_TEXT" "Missing channel in text token"
                            [("token", token)]))
          else
            let channelRaw := slice after 0 sep in
            let text := slice_from after (sep + 1) in
            if negb (isHarmonyChannel channelRaw) then
              (state, Some (raise "INVALID_CHANNEL"
                              ("Unknown channel: " ++ channelRaw)
                              [("token", token); ("channel", channelRaw)]))
            else
              ({| state_messages := state_messages state;
                  current :=
                    Some {| role := role cur;
                            content := (content cur ++ [TextChunk text channelRaw])%list |};
                  lastStreamingChannel := lastStreamingChannel state;
                  expectingPayload := Some false |}, None)
        else if startsWith token "tool:" 0 then
          let rest := slice_from token (len "tool:") in
          let first := indexOf rest ":" 0 in
          let second := indexOf rest ":" (first + 1) in
          if (first <? 0) || (second <? 0) then
            (state, Some (raise "INVALID_TOOL"
                            "Malformed tool token: missing separators"
                            [("token", token)]))
          else
            let namespace' := slice rest 0 first in
            let name' := slice rest (first + 1) second in
            let argsRaw := slice_from rest (second + 1) in
            match JSON_parse argsRaw with
            | None =>
                (state, Some (raise "INVALID_TOOL_ARGS" "Invalid JSON args"
                                [("token", token); ("args", argsRaw)]))
            | Some parsed =>
                ({| state_messages := state_messages state;
                    current :=
                      Some {| role := role cur;
                              content :=
                                (content cur ++
                                 [ToolCallChunk
                                    {| namespace := namespace'; name := name';
                                       arguments := parsed |}])%list |};
                    lastStreamingChannel := lastStreamingChannel state;
                    expectingPayload := Some false |}, None)
            end
        else if truthy (expectingPayload state)
                && is_string (lastStreamingChannel state) then
          ({| state_messages := state_messages state;
              current := current state;
              lastStreamingChannel := lastStreamingChannel state;
              expectingPayload := Some false |}, None)
        else
          (state, Some (raise "UNKNOWN_TOKEN" ("Unknown token prefix: " ++ token)
                          [("token", token)]))
    end.

(** [finish()]: the state after the call and the conversation returned. *)
Definition finish (state : ParseState) : ParseState * HarmonyConversation :=
  let msgs :=
    match current state with
    | Some currentMessage => (state_messages state ++ [currentMessage])%list
    | None => state_messages state
    end in
  ({| state_messages := msgs; current := None;
      lastStreamingChannel := lastStreamingChannel state;
      expectingPayload := expectingPayload state |},
   {| messages := msgs |}).

(** ** parseTokens and tryParseTokens *)

(** The [for] loop of [parseTokens]: pushes until a push throws. *)
Fixpoint push_all (state : ParseState) (tokens : list string)
  (delimiters : option HarmonyDelimiters) : ParseState * option HarmonyError :=
  match tokens with
  | [] => (state, None)
  | t :: rest =>
      match push state t delimiters with
      | (state', None) => push_all state' rest delimiters
      | (state', Some e) => (state', Some e)
      end
  end.

Definition parseTokens (tokens : list string)
  (delimiters : option HarmonyDelimiters) : Completion HarmonyConversation :=
  match push_all createParser tokens delimiters with
  | (state, None) => Normal (snd (finish state))
  | (_, Some e) => Throw (ThrownHarmonyError e)
  end.

Inductive TryResult : Type :=
| TryOk (value : HarmonyConversation)
| TryError (error : HarmonyError).

Definition tryParseTokens (tokens : list string)
  (delimiters : option HarmonyDelimiters) : TryResult :=
  match parseTokens tokens delimiters with
  | Normal value => TryOk value
  | Throw (ThrownHarmonyError err) => TryError err
  | Throw err =>
      let message0 := "Error" in
      let message1 :=
        match err with
        | ThrownError m => m
        | ThrownString s => if 0 <? len s then s else message0
        | _ => message0
        end in
      TryError {| code := "UNKNOWN_ERROR"; error_message := message1;
                  details := None |}
  end.

End DataModel.

(** ** tokenizeCompletionString *)

(** [findNextDelimiterIndex] *)
Definition findNextDelimiterIndex (input : string) (from : Z)
  (delims : HarmonyDelimiters) : Z :=
  let indices :=
    [ indexOf input (start delims) from;
      indexOf input (message delims) from;
      indexOf input (end_ delims) from ] in
  let idxs := filter (fun x => x >=? 0) indices in
  match idxs with
  | [] => len input
  | min0 :: others =>
      fold_left (fun min candidate => if candidate <? min then candidate else min)
        others min0
  end.

(** The inner loop over [j]: from [roleStart], past the run of characters
    of [[a-z]]. *)
Definition scan_role (input : string) (roleStart : Z) : Z :=
  roleStart + Z.of_nat (span is_lower (drop (Z.to_nat roleStart) input)).

(** The [while (i < input.length)] loop; [None] when [fuel] iterations
    do not end it. *)
Fixpoint tokenize_loop (fuel : nat) (delims : HarmonyDelimiters)
  (input : string) (i : Z) (tokens : list string) : option (list string) :=
  match fuel with
  | O => None
  | S fuel' =>
      if i <? len input then
        if startsWith input (start delims) i then
          let roleStart := i + len (start delims) in
          let j := scan_role input roleStart in
          tokenize_loop fuel' delims input j (tokens ++ [slice input i j])%list
        else if startsWith input (message delims) i then
          tokenize_loop fuel' delims input (i + len (message delims))
            (tokens ++ [message delims])%list
        else if startsWith input (end_ delims) i then
          tokenize_loop fuel' delims input (i + len (end_ delims))
            (tokens ++ [end_ delims])%list
        else
          let nextIdx := findNextDelimiterIndex input i delims in
          let payload := slice input i nextIdx in
          tokenize_loop fuel' delims input nextIdx
            (if 0 <? len payload then (tokens ++ [payload])%list else tokens)
      else Some tokens
  end.

(** An iteration that makes progress moves [i] by at least one, so
    [length input + 1] iterations end every run that ends at all. *)
Definition tokenizeCompletionString (input : string)
  (delimiters : option HarmonyDelimiters) : option (list string) :=
  tokenize_loop (S (String.length input)) (delims_or_default delimiters)
    input 0 [].

(** ** isHarmonyFormat and the channel extractors *)

(** The values a caller can pass where a string is expected. *)
Inductive JsValue : Type :=
| JsUndefined
| JsNull
| JsBoolean (b : bool)
| JsNumber (n : Z)
| JsString (s : string)
| JsObject.

Definition isHarmonyFormat (input : JsValue)
  (delimiters : option HarmonyDelimiters) : bool :=
  match input with
  | JsString s =>
      if len s =? 0 then false
      else
        let delims := delims_or_default delimiters in
        let hasStart := includes s (start delims) in
        let hasChannel := includes s CHANNEL_MARKER in
        let hasMessage := includes s (message delims) in
        let hasEnd := includes s (end_ delims) in
        (hasStart || hasChannel) && hasChannel && (hasMessage || hasEnd)
  | _ => false
  end.

(** One of the four complete markers at the head of [s], in the order of
    the alternation [(start|message|end|channel)]. *)
Definition marker_at (s : string) : option string :=
  if String.prefix "<|start|>" s then Some "<|start|>"
  else if String.prefix "<|message|>" s then Some "<|message|>"
  else if String.prefix "<|end|>" s then Some "<|end|>"
  else if String.prefix "<|channel|>" s then Some "<|channel|>"
  else None.

(** [text.replace(/<\|(start|message|end|channel)\|>/g, "")] *)
Fixpoint strip_markers_from (fuel : nat) (s : string) : string :=
  match fuel with
  | O => s
  | S fuel' =>
      match s with
      | EmptyString => EmptyString
      | String c s' =>
          match marker_at s with
          | Some m => strip_markers_from fuel' (drop (String.length m) s)
          | None => String c (strip_markers_from fuel' s')
          end
      end
  end.

Definition strip_markers (s : string) : string :=
  strip_markers_from (String.length s) s.

Fixpoint all_chars (f : ascii -> bool) (s : string) : bool :=
  match s with
  | EmptyString => true
  | String c s' => f c && all_chars f s'
  end.

(** [text.replace(/<\|[a-zA-Z]*$/g, "")] *)
Fixpoint strip_partial_marker (s : string) : string :=
  match s with
  | EmptyString => EmptyString
  | String c s' =>
      if String.prefix "<|" s && all_chars is_alpha (drop 2 s)
      then EmptyString
      else String c (strip_partial_marker s')
  end.

Definition safeExtractChannel (input channel : string) : string :=
  let channelTag := "<|channel|>" ++ channel in
  let idxChannel := lastIndexOf input channelTag in
  if idxChannel <? 0 then EmptyString
  else
    let idxMsg := indexOf input "<|message|>" idxChannel in
    if idxMsg <? 0 then EmptyString
    else
      let start0 := idxMsg + len "<|message|>" in
      let nextEnd := indexOf input "<|end|>" start0 in
      let nextStart := indexOf input "<|start|>" start0 in
      let nextChannel := indexOf input "<|channel|>" start0 in
      let end0 := len input in
      let end1 := if nextEnd >=? 0 then Z.min end0 nextEnd else end0 in
      let end2 := if nextStart >=? 0 then Z.min end1 nextStart else end1 in
      let end3 := if nextChannel >=? 0 then Z.min end2 nextChannel else end2 in
      let text0 := slice input start0 end3 in
      let text1 := strip_markers text0 in
      let text2 := strip_partial_marker text1 in
      trim text2.

Definition extractReasoningContent (input : string) : string :=
  if negb (isHarmonyFormat (JsString input) None) then EmptyString
  else safeExtractChannel input "analysis".

Definition extractFinalContent (input : string) : string :=
  if negb (isHarmonyFormat (JsString input) None) then input
  else
    let finalText := safeExtractChannel input "final" in
    if 0 <? len finalText then finalText
    else
      let commentaryText := safeExtractChannel input "commentary" in
      if 0 <? len commentaryText then commentaryText
      else EmptyString.

Definition extractCommentaryContent (input : string) : string :=
  if negb (isHarmonyFormat (JsString input) None) then EmptyString
  else safeExtractChannel input "commentary".

(** ** HarmonyStreamParser *)

Definition newline : string := String (ascii_of_nat 10) EmptyString.

Record StreamParseResult : Type := {
  isComplete : bool;
  currentAnalysis : string;
  currentFinal : string;
  currentCommentary : string;
  lastChannelDetected : option string;
  bufferContent : string
}.

Record HarmonyStreamParser : Type := {
  buffer : string;
  currentChannel : option string
}.

(** [new HarmonyStreamParser()] *)
Definition new_parser : HarmonyStreamParser :=
  {| buffer := EmptyString; currentChannel := None |}.

(** The character class [[^<\s]]. *)
Definition channel_name_char (c : ascii) : bool :=
  negb (Ascii.eqb c "<"%char) && negb (is_space c).

(** The first capture group of every match of the global expression
    [<\|channel\|>([^<\s]+)], left to right. *)
Fixpoint channel_matches_from (fuel : nat) (s : string) : list string :=
  match fuel with
  | O => []
  | S fuel' =>
      match s with
      | EmptyString => []
      | String _ s' =>
          if String.prefix CHANNEL_MARKER s then
            let rest := drop (String.length CHANNEL_MARKER) s in
            let n := span channel_name_char rest in
            if (0 <? n)%nat
            then take n rest :: channel_matches_from fuel' (drop n rest)
            else channel_matches_from fuel' s'
          else channel_matches_from fuel' s'
      end
  end.

Definition channel_matches (s : string) : list string :=
  channel_matches_from (String.length s) s.

Definition detectCurrentChannel (self : HarmonyStreamParser)
  : HarmonyStreamParser :=
  let matches := channel_matches (buffer self) in
  match last (map Some matches) None with
  | Some channel =>
      if 0 <? len channel
      then {| buffer := buffer self; currentChannel := Some channel |}
      else self
  | None => self
  end.

(** The body [(.*?)] and the rest of the input after the terminator
    [(?:(?=<\|channel\|>)|<\|end\|>|$)], for the text that follows a
    matched header. *)
Fixpoint lazy_body (s : string) : string * string :=
  if String.prefix "<|channel|>" s then (EmptyString, s)
  else if String.prefix "<|end|>" s
       then (EmptyString, drop (String.length "<|end|>") s)
  else match s with
       | EmptyString => (EmptyString, EmptyString)
       | String c s' => let (b, r) := lazy_body s' in (String c b, r)
       end.

(** The first capture group of every [exec] of the global, dot-all
    expression [header(.*?)(?:(?=<\|channel\|>)|<\|end\|>|$)], where
    [header] is a literal. *)
Fixpoint channel_bodies_from (fuel : nat) (header s : string) : list string :=
  match fuel with
  | O => []
  | S fuel' =>
      match find header s with
      | None => []
      | Some p =>
          let (body, rest) := lazy_body (drop (p + String.length header) s) in
          body :: channel_bodies_from fuel' header rest
      end
  end.

Definition channel_header (channel : string) : string :=
  "<|channel|>" ++ channel ++ "<|message|>".

Definition channel_bodies (input channel : string) : list string :=
  channel_bodies_from (S (String.length input)) (channel_header channel) input.

Definition nonempty (s : string) : bool := 0 <? len s.

(** [collectChannelText]: its callers pass the constants ["analysis"],
    ["final"] and ["commentary"], which splice into the expression as
    literals. *)
Definition collectChannelText (input channel : string) : string :=
  let parts := filter nonempty (map trim (channel_bodies input channel)) in
  join parts newline.

(** A character the regular-expression grammar reads as syntax. *)
Definition is_syntax_char (c : ascii) : bool :=
  existsb (Ascii.eqb c)
    ["^"; "$"; "\"; "."; "*"; "+"; "?"; "("; ")"; "["; "]"; "{"; "}"; "|"]%char.

Definition literal_channel (channel : string) : bool :=
  all_chars (fun c => negb (is_syntax_char c)) channel.

(** The host's regular-expression engine on a channel name that holds
    syntax characters: what [collectLastChannelText input channel]
    returns, or [None] when the call does not return (the constructor
    rejects the spliced source, or the [exec] loop does not end). *)
Class RegExpHost : Type := {
  collect_last_spliced : string -> string -> option string
}.

Section Extractor.
Context {regexp : RegExpHost}.

(** [collectLastChannelText]: called with the detected channel name,
    which is any run of characters outside [<] and white space. *)
Definition collectLastChannelText (input channel : string) : option string :=
  if literal_channel channel then
    Some (fold_left (fun last text => if nonempty text then text else last)
            (map trim (channel_bodies input channel)) EmptyString)
  else collect_last_spliced input channel.

Definition extractIncompleteContentFromWindow (win : string) : string :=
  let all := literal_matches "<|message|>" win in
  match last (map Some all) None with
  | None => EmptyString
  | Some idxBase =>
      let idx := Z.of_nat idxBase + len "<|message|>" in
      let after := slice_from win idx in
      if includes after "<|end|>" then EmptyString else trim after
  end.

Definition append_line (current incompleteContent : string) : string :=
  if 0 <? len current then current ++ newline ++ incompleteContent
  else incompleteContent.

(** [parseCurrentBuffer]: the state after the call, and the snapshot it
    returns, if it returns. *)
Definition parseCurrentBuffer (self : HarmonyStreamParser)
  : HarmonyStreamParser * option StreamParseResult :=
  let hasHarmonyMarkers :=
    includes (buffer self) "<|start|>" ||
    includes (buffer self) "<|channel|>" ||
    includes (buffer self) "<|message|>" in
  if negb hasHarmonyMarkers then
    (self, Some {| isComplete := false;
                   currentAnalysis := EmptyString;
                   currentFinal := buffer self;
                   currentCommentary := EmptyString;
                   lastChannelDetected := None;
                   bufferContent := buffer self |})
  else
    let self := detectCurrentChannel self in
    let lastStartIdx := lastIndexOf (buffer self) "<|start|>" in
    let windowStart := if lastStartIdx >=? 0 then lastStartIdx else 0 in
    let endAfterStartIdx := indexOf (buffer self) "<|end|>" windowStart in
    let windowEnd :=
      if endAfterStartIdx >=? 0 then endAfterStartIdx + len "<|end|>"
      else len (buffer self) in
    let messageWindow := slice (buffer self) windowStart windowEnd in
    let currentAnalysis0 := collectChannelText messageWindow "analysis" in
    let currentFinal0 := collectChannelText messageWindow "final" in
    let currentCommentary0 := collectChannelText messageWindow "commentary" in
    let incompleteContent := extractIncompleteContentFromWindow messageWindow in
    let is_channel (c : string) :=
      match currentChannel self with
      | Some ch => (ch =? c)%string
      | None => false
      end in
    let appending :=
      (0 <? len incompleteContent) &&
      match currentChannel self with
      | Some ch => 0 <? len ch
      | None => false
      end in
    let currentAnalysis1 :=
      if appending && is_channel "analysis"
      then append_line currentAnalysis0 incompleteContent
      else currentAnalysis0 in
    let currentFinal1 :=
      if appending && is_channel "final"
      then append_line currentFinal0 incompleteContent
      else currentFinal0 in
    let currentCommentary1 :=
      if appending && is_channel "commentary"
      then append_line currentCommentary0 incompleteContent
      else currentCommentary0 in
    let isComplete0 :=
      (List.length (literal_matches "<|start|>" (buffer self)) =?
       List.length (literal_matches "<|end|>" (buffer self)))%nat &&
      (0 <? List.length (literal_matches "<|start|>" (buffer self)))%nat in
    match currentChannel self with
    | Some ch =>
        match collectLastChannelText messageWindow ch with
        | None => (self, None)
        | Some lastOnly =>
            let preferred (c current : string) :=
              if (ch =? c)%string && (0 <? len lastOnly) then lastOnly
              else current in
            (self, Some {| isComplete := isComplete0;
                           currentAnalysis := preferred "analysis" currentAnalysis1;
                           currentFinal := preferred "final" currentFinal1;
                           currentCommentary :=
                             preferred "commentary" currentCommentary1;
                           lastChannelDetected := Some ch;
                           bufferContent := buffer self |})
        end
    | None =>
        (self, Some {| isComplete := isComplete0;
                       currentAnalysis := currentAnalysis1;
                       currentFinal := currentFinal1;
                       currentCommentary := currentCommentary1;
                       lastChannelDetected := None;
                       bufferContent := buffer self |})
    end.

Definition addContent (self : HarmonyStreamParser) (content : string)
  : HarmonyStreamParser * option StreamParseResult :=
  parseCurrentBuffer
    {| buffer := buffer self ++ content; currentChannel := currentChannel self |}.

Definition reset (self : HarmonyStreamParser) : HarmonyStreamParser :=
  {| buffer := EmptyString; currentChannel := None |}.

Definition getBuffer (self : HarmonyStreamParser) : string := buffer self.

(** A sequence of [addContent] calls on one instance: the state after
    the last call and what each call returned. *)
Fixpoint addContents (self : HarmonyStreamParser) (chunks : list string)
  : HarmonyStreamParser * list (option StreamParseResult) :=
  match chunks with
  | [] => (self, [])
  | c :: rest =>
      let (self', r) := addContent self c in
      let (self'', rs) := addContents self' rest in
      (self'', r :: rs)
  end.

End Extractor.

(** ** Hosts for closed examples *)

(** The values [null], [true] and [false] with their JSON texts:
    [JSON.parse] skips the JSON white space around the literal and
    rejects a text that is not one of the three. *)
Inductive JsonLiteral : Type := JNull | JTrue | JFalse.

Definition json_space (c : ascii) : bool :=
  let n := nat_of_ascii c in
  ((n =? 9) || (n =? 10) || (n =? 13) || (n =? 32))%nat.

Definition literal_text (v : JsonLiteral) : string :=
  match v with
  | JNull => "null"
  | JTrue => "true"
  | JFalse => "false"
  end.

Definition parse_literal (s : string) : option JsonLiteral :=
  let t := drop (span json_space s) s in
  let is_text (l : string) :=
    String.prefix l t && all_chars json_space (drop (String.length l) t) in
  if is_text "null" then Some JNull
  else if is_text "true" then Some JTrue
  else if is_text "false" then Some JFalse
  else None.

#[local] Instance literal_host : JsonHost :=
  {| json_value := JsonLiteral;
     JSON_stringify := fun v => Some (literal_text v);
     JSON_parse := parse_literal |}.

(** A regular-expression host for closed examples whose channel names
    are literals: no spliced source is run on it. *)
#[local] Instance literal_regexp : RegExpHost :=
  {| collect_last_spliced := fun _ _ => None |}.


(** ** Predicates of the statements *)

Definition colon_free (s : string) : bool := negb (includes s ":").

(** Neither string is a prefix of the other. *)
Definition apart (a b : string) : bool :=
  negb (String.prefix a b) && negb (String.prefix b a).

(** A delimiter set the rendered tokens can be told apart under: the
    start marker is no prefix of the message marker, of the end marker or
    of a payload token, and no payload token is the message or the end
    marker. *)
Definition unambiguous (d : HarmonyDelimiters) : bool :=
  negb (String.prefix (start d) (message d)) &&
  negb (String.prefix (start d) (end_ d)) &&
  apart (start d) "text:" && apart (start d) "tool:" &&
  negb (String.prefix "text:" (message d)) &&
  negb (String.prefix "tool:" (message d)) &&
  negb (String.prefix "text:" (end_ d)) &&
  negb (String.prefix "tool:" (end_ d)).

Section Predicates.
Context {host : JsonHost}.

(** The arguments survive [JSON.parse(JSON.stringify(arguments))]. *)
Definition args_round_trip (call : HarmonyToolCall) : Prop :=
  exists s, JSON_stringify (arguments call) = Some s /\
            JSON_parse s = Some (arguments call).

Definition chunk_supported (chunk : HarmonyContentChunk) : Prop :=
  match chunk with
  | TextChunk _ channel => isHarmonyChannel channel = true
  | ToolCallChunk call => args_round_trip call
  end.

(** Supported roles, structured channels, arguments that round-trip. *)
Definition conversation_supported (c : HarmonyConversation) : Prop :=
  Forall (fun m => isHarmonyRole (role m) = true /\
                   Forall chunk_supported (content m)) (messages c).

Definition chunk_colon_free (chunk : HarmonyContentChunk) : Prop :=
  match chunk with
  | TextChunk _ _ => True
  | ToolCallChunk call =>
      colon_free (namespace call) = true /\ colon_free (name call) = true
  end.

(** No tool call has a [":"] in its namespace or name. *)
Definition tools_colon_free (c : HarmonyConversation) : Prop :=
  Forall (fun m => Forall chunk_colon_free (content m)) (messages c).

(** The messages a state holds: the closed ones, then the open one. *)
Definition pending (state : ParseState) : list HarmonyMessage :=
  match current state with
  | Some m => (state_messages state ++ [m])%list
  | None => state_messages state
  end.

End Predicates.

(** ** Data of the closed examples *)

(** A tool call whose namespace holds the separator. *)
Definition colon_conversation : HarmonyConversation :=
  {| messages :=
       [ {| role := "assistant";
            content :=
              [ToolCallChunk
                 {| namespace := "a:b"; name := "c"; arguments := JNull |}] |} ] |}.

Definition greeting_conversation : HarmonyConversation :=
  {| messages :=
       [ {| role := "user"; content := [TextChunk "hi" "message"] |} ] |}.

(** Delimiters whose start marker begins every ["text:"] token. *)
Definition t_delims : HarmonyDelimiters :=
  {| start := "t"; message := "m"; end_ := "e" |}.

Definition sample_conversation : HarmonyConversation :=
  {| messages :=
       [ {| role := "user"; content := [TextChunk "Hello" "message"] |};
         {| role := "assistant";
            content :=
              [ TextChunk "Let me think: a, b" "reasoning";
                ToolCallChunk
                  {| namespace := "math"; name := "add"; arguments := JTrue |} ] |} ] |}.

(** A parser with an open user message that holds one text chunk. *)
Definition open_user_state : ParseState :=
  {| state_messages := [];
     current := Some {| role := "user"; content := [TextChunk "Hi" "message"] |};
     lastStreamingChannel := None;
     expectingPayload := Some false |}.

(** Delimiters with an empty start marker. *)
Definition empty_start_delims : HarmonyDelimiters :=
  {| start := EmptyString; message := "<|message|>"; end_ := "<|end|>" |}.

(** Every marker of the set has at least one character. *)
Definition markers_nonempty (d : HarmonyDelimiters) : bool :=
  (0 <? len (start d)) && (0 <? len (message d)) && (0 <? len (end_ d)).

(** [s] contains [p]: some text, then [p], then some text. *)
Definition contains (s p : string) : Prop :=
  exists a b, s = a ++ p ++ b.

(** Number of positions of [s] at which [p] occurs. *)
Fixpoint occurrences (p s : string) : nat :=
  ((if String.prefix p s then 1 else 0) +
   match s with
   | EmptyString => 0
   | String _ s' => occurrences p s'
   end)%nat.

(** The channel marker followed by a channel-name character, at the
    head of [s]. *)
Definition candidate_at (s : string) : bool :=
  String.prefix CHANNEL_MARKER s &&
  (0 <? span channel_name_char (drop (String.length CHANNEL_MARKER) s))%nat.

Fixpoint has_candidate (s : string) : bool :=
  match s with
  | EmptyString => false
  | String _ s' => candidate_at s || has_candidate s'
  end.

(** The channel [detectCurrentChannel] finds in a buffer on its own. *)
Definition detected (b : string) : option string :=
  currentChannel (detectCurrentChannel {| buffer := b; currentChannel := None |}).

(** The snapshot a fresh instance returns for a whole buffer. *)
Definition snapshot_of {regexp : RegExpHost} (b : string)
  : option StreamParseResult :=
  snd (parseCurrentBuffer {| buffer := b; currentChannel := None |}).

Definition fresh_or_reset (self : HarmonyStreamParser) : Prop :=
  self = new_parser \/ exists used, self = reset used.

(** The chunks of the completeness scenario. *)
Definition two_starts : string := "<|start|>one<|start|>two<|message|>content".

(** ** Names for the parts of [parseCurrentBuffer] *)

Definition has_markers (b : string) : bool :=
  includes b "<|start|>" || includes b "<|channel|>" || includes b "<|message|>".

(** The window of the last message of a buffer. *)
Definition message_window (b : string) : string :=
  let lastStartIdx := lastIndexOf b "<|start|>" in
  let windowStart := if lastStartIdx >=? 0 then lastStartIdx else 0 in
  let endAfterStartIdx := indexOf b "<|end|>" windowStart in
  let windowEnd :=
    if endAfterStartIdx >=? 0 then endAfterStartIdx + len "<|end|>"
    else len b in
  slice b windowStart windowEnd.

(** The completeness flag of a buffer. *)
Definition complete_flag (b : string) : bool :=
  (List.length (literal_matches "<|start|>" b) =?
   List.length (literal_matches "<|end|>" b))%nat &&
  (0 <? List.length (literal_matches "<|start|>" b))%nat.

Section Parts.
Context {regexp : RegExpHost}.

(** The text of channel [c] after the in-progress content is appended
    to the active channel [active]. *)
Definition channel_text (b : string) (active : option string) (c : string)
  : string :=
  let w := message_window b in
  if (0 <? len (extractIncompleteContentFromWindow w)) &&
     match active with Some ch => 0 <? len ch | None => false end &&
     match active with Some ch => (ch =? c)%string | None => false end
  then append_line (collectChannelText w c) (extractIncompleteContentFromWindow w)
  else collectChannelText w c.

Definition preferred_text (ch lastOnly c current : string) : string :=
  if (ch =? c)%string && (0 <? len lastOnly) then lastOnly else current.

(** The snapshot of a buffer that holds markers, for an active channel. *)
Definition window_snapshot (b : string) (active : option string)
  : option StreamParseResult :=
  match active with
  | Some ch =>
      match collectLastChannelText (message_window b) ch with
      | None => None
      | Some lastOnly =>
          Some {| isComplete := complete_flag b;
                  currentAnalysis :=
                    preferred_text ch lastOnly "analysis"
                      (channel_text b active "analysis");
                  currentFinal :=
                    preferred_text ch lastOnly "final"
                      (channel_text b active "final");
                  currentCommentary :=
                    preferred_text ch lastOnly "commentary"
                      (channel_text b active "commentary");
                  lastChannelDetected := Some ch;
                  bufferContent := b |}
      end
  | None =>
      Some {| isComplete := complete_flag b;
              currentAnalysis := channel_text b active "analysis";
              currentFinal := channel_text b active "final";
              currentCommentary := channel_text b active "commentary";
              lastChannelDetected := None;
              bufferContent := b |}
  end.

(** The snapshot of a buffer without markers. *)
Definition plain_snapshot (b : string) : StreamParseResult :=
  {| isComplete := false;
     currentAnalysis := EmptyString;
     currentFinal := b;
     currentCommentary := EmptyString;
     lastChannelDetected := None;
     bufferContent := b |}.

End Parts.

(** ** The remaining exports *)

(** [AllRoles] *)
Definition AllRoles : list string :=
  ["system"; "developer"; "user"; "assistant"; "tool"].

Section Builders.
Context {host : JsonHost}.

(** [parseConversationFromString]: [None] when the tokenizer does not
    return. *)
Definition parseConversationFromString (input : string)
  (delimiters : option HarmonyDelimiters)
  : option (Completion HarmonyConversation) :=
  match tokenizeCompletionString input delimiters with
  | Some tokens => Some (parseTokens tokens delimiters)
  | None => None
  end.

(** The [content] argument of [Message.fromRoleAndContent]:
    [string | HarmonyContentChunk | HarmonyContentChunk[]]. *)
Inductive MessageContent : Type :=
| ContentString (s : string)
| ContentChunk (chunk : HarmonyContentChunk)
| ContentChunks (chunks : list HarmonyContentChunk).

(** [Message.fromRoleAndContent] *)
Definition fromRoleAndContent (role0 : string) (content0 : MessageContent)
  : HarmonyMessage :=
  let chunks :=
    match content0 with
    | ContentChunks cs => cs
    | ContentString s => [TextChunk s "message"]
    | ContentChunk c => [c]
    end in
  {| role := role0; content := chunks |}.

(** [Conversation.fromMessages] *)
Definition fromMessages (messages0 : list HarmonyMessage)
  : HarmonyConversation :=
  {| messages := messages0 |}.

(** [HarmonyEncoding]: both functions are declared with a role, which
    the implementations do not read. *)
Record HarmonyEncoding : Type := {
  renderConversationForCompletion :
    HarmonyConversation -> string -> list string;
  parseMessagesFromCompletionTokens :
    list string -> string -> Completion HarmonyConversation
}.

(** [loadHarmonyEncoding] *)
Definition loadHarmonyEncoding (name0 : string) : Completion HarmonyEncoding :=
  if negb (name0 =? "HARMONY_GPT_OSS")%string then
    Throw (ThrownHarmonyError
             {| code := "UNKNOWN_ENCODING";
                error_message := "Unknown encoding: " ++ name0;
                details := None |})
  else
    Normal
      {| renderConversationForCompletion :=
           fun conversation _ => renderConversation conversation None;
         parseMessagesFromCompletionTokens :=
           fun tokens _ => parseTokens tokens None |}.

End Builders.

(** ** Predicates of the further statements *)

Section MorePredicates.
Context {host : JsonHost}.

(** A message the strict parser can have built: a role of the closed
    set, and text chunks on channels of the closed set. *)
Definition message_well_formed (m : HarmonyMessage) : Prop :=
  isHarmonyRole (role m) = true /\
  Forall (fun chunk =>
            match chunk with
            | TextChunk _ channel => isHarmonyChannel channel = true
            | ToolCallChunk _ => True
            end) (content m).

Definition state_well_formed (state : ParseState) : Prop :=
  Forall message_well_formed (state_messages state) /\
  match current state with
  | Some m => message_well_formed m
  | None => True
  end.

(** A token none of the branches of [push] recognises. *)
Definition raw_payload (d : HarmonyDelimiters) (token : string) : bool :=
  negb (startsWith token (start d) 0) &&
  negb (startsWith token CHANNEL_MARKER 0) &&
  negb (token =? message d)%string &&
  negb (token =? end_ d)%string &&
  negb (startsWith token "text:" 0) &&
  negb (startsWith token "tool:" 0).

End MorePredicates.

(** The error codes of [push]. *)
Definition push_codes : list string :=
  ["INVALID_ROLE"; "UNEXPECTED_TOKEN"; "INVALID_TEXT"; "INVALID_CHANNEL";
   "INVALID_TOOL"; "INVALID_TOOL_ARGS"; "UNKNOWN_TOKEN"].

(** A parser inside an assistant message, after a channel declaration
    and a message marker. *)
Definition streaming_state : ParseState :=
  {| state_messages := [];
     current := Some {| role := "assistant"; content := [] |};
     lastStreamingChannel := Some "analysis";
     expectingPayload := Some true |}.

(** One iteration of the loop of [tokenizeCompletionString] at index
    [i]: the next index, and the token pushed, if one is. *)
Definition tokenize_step (delims : HarmonyDelimiters) (input : string) (i : Z)
  : Z * option string :=
  if startsWith input (start delims) i then
    let j := scan_role input (i + len (start delims)) in
    (j, Some (slice input i j))
  else if startsWith input (message delims) i then
    (i + len (message delims), Some (message delims))
  else if startsWith input (end_ delims) i then
    (i + len (end_ delims), Some (end_ delims))
  else
    let nextIdx := findNextDelimiterIndex input i delims in
    let payload := slice input i nextIdx in
    (nextIdx, if 0 <? len payload then Some payload else None).

Definition pushed (tokens : list string) (t : option string) : list string :=
  match t with
  | Some x => (tokens ++ [x])%list
  | None => tokens
  end.

Fixpoint last_char (s : string) : option ascii :=
  match s with
  | EmptyString => None
  | String c EmptyString => Some c
  | String _ s' => last_char s'
  end.

Definition first_char (s : string) : option ascii :=
  match s with
  | EmptyString => None
  | String c _ => Some c
  end.

(** Neither the first nor the last character is white space. *)
Definition edges_clean (s : string) : Prop :=
  match first_char s with Some c => is_space c = false | None => True end /\
  match last_char s with Some c => is_space c = false | None => True end.

(** A marker of the set stands at index [k] of [input]. *)
Definition marker_here (delims : HarmonyDelimiters) (input : string) (k : Z)
  : bool :=
  startsWith input (start delims) k || startsWith input (message delims) k ||
  startsWith input (end_ delims) k.

(** No default marker occurs in [s]. *)
Definition marker_free (s : string) : bool :=
  negb (includes s "<|start|>") && negb (includes s "<|message|>") &&
  negb (includes s "<|end|>").

Section Payloads.
Context {host : JsonHost}.

(** The payload token [renderConversation] writes for a chunk. *)
Definition chunk_payload (chunk : HarmonyContentChunk) : string :=
  last (render_chunk DEFAULT_DELIMS chunk) EmptyString.

(** No payload token of the conversation holds a default marker. *)
Definition payloads_marker_free (c : HarmonyConversation) : Prop :=
  Forall (fun m =>
            Forall (fun chunk => marker_free (chunk_payload chunk) = true)
              (content m)) (messages c).

End Payloads.

(** Tokens the loop of the tokenizer reads off one by one: at an index
    where the rest of the input is the concatenation of the tokens, one
    iteration pushes the first token and moves past it. *)
Inductive read_in_order : list string -> Prop :=
| read_nil : read_in_order []
| read_cons (t : string) (ts : list string) :
    t <> EmptyString ->
    (forall input i,
        0 <= i <= len input ->
        drop (Z.to_nat i) input = t ++ String.concat EmptyString ts ->
        tokenize_step DEFAULT_DELIMS input i = (i + len t, Some t)) ->
    read_in_order ts ->
    read_in_order (t :: ts).

Section Frames.
Context {host : JsonHost}.

(** The state with the messages [closed] standing before its own. *)
Definition after_closed (closed : list HarmonyMessage) (state : ParseState)
  : ParseState :=
  {| state_messages := (closed ++ state_messages state)%list;
     current := current state;
     lastStreamingChannel := lastStreamingChannel state;
     expectingPayload := expectingPayload state |}.

End Frames.

(** ** Bodies of the string extractors *)

(** The markers at which [safeExtractChannel] ends a body. *)
Definition body_terminators : list string :=
  ["<|end|>"; "<|start|>"; "<|channel|>"].

(** None of the terminators occurs in [body]. *)
Definition unterminated (body : string) : bool :=
  forallb (fun t => negb (includes body t)) body_terminators.

(** A body ends where [rest] begins: at the end of the input or at a
    terminator. *)
Definition terminated_here (rest : string) : bool :=
  (len rest =? 0) || existsb (fun t => String.prefix t rest) body_terminators.

(** The clean-up every extracted body goes through. *)
Definition cleaned (body : string) : string :=
  trim (strip_partial_marker (strip_markers body)).

(** The tag [safeExtractChannel] searches for. *)
Definition channel_tag (channel : string) : string := "<|channel|>" ++ channel.

(** The input up to the body: text, tag, gap and message marker. *)
Definition body_head (channel pre gap : string) : string :=
  pre ++ channel_tag channel ++ gap ++ "<|message|>".

(** [input] holds the tag of [channel] for the last time after [pre];
    the first message marker after the tag comes after [gap], and the
    body behind it runs up to [rest]. *)
Definition last_body (channel input pre gap body rest : string) : Prop :=
  input = pre ++ ("<|channel|>" ++ channel) ++ gap ++ "<|message|>" ++ body ++ rest /\
  includes (gap ++ "<|message|>" ++ body ++ rest) ("<|channel|>" ++ channel) = false /\
  includes gap "<|message|>" = false /\
  unterminated body = true /\
  terminated_here rest = true.

(** A channel whose name only begins with [final], before a commentary
    channel. *)
Definition finalize_then_commentary : string :=
  "<|start|>assistant<|channel|>finalize<|message|>F text<|end|><|start|>assistant<|channel|>commentary<|message|>C text<|end|>".

(** A commentary channel before a channel whose name only begins with
    [commentary]. *)
Definition commentary_then_longer : string :=
  "<|start|>assistant<|channel|>commentary<|message|>A<|end|><|start|>assistant<|channel|>commentaryX<|message|>B<|end|>".

(** Two commentary channels, the second with a recipient in its header. *)
Definition commentary_twice : string :=
  "<|start|>assistant<|channel|>commentary<|message|>Old<|end|><|start|>assistant<|channel|>commentary to=user<|message|> Commentary text <|end|>".
(** * Properties *)

(** ** Strings *)
Module JsFacts.

Lemma prefix_cons (a b : ascii) (p s : string) :
  String.prefix (String a p) (String b s) = Ascii.eqb a b && String.prefix p s.
Proof.
  simpl. destruct (ascii_dec a b) as [->|n].
  - now rewrite Ascii.eqb_refl.
  - apply Ascii.eqb_neq in n. now rewrite n.
Qed.

Lemma prefix_nil (s : string) : String.prefix EmptyString s = true.
Proof. now destruct s. Qed.

Lemma prefix_app (p s : string) : String.prefix p (p ++ s) = true.
Proof.
  induction p as [|c p IH]; cbn [append].
  - apply prefix_nil.
  - now rewrite prefix_cons, Ascii.eqb_refl.
Qed.

Lemma prefix_split (p s : string) :
  String.prefix p s = true -> s = p ++ drop (String.length p) s.
Proof.
  revert s. induction p as [|c p IH]; intros s H.
  - reflexivity.
  - destruct s as [|b s]; [discriminate|].
    rewrite prefix_cons in H. apply andb_prop in H as [Hc Hp].
    apply Ascii.eqb_eq in Hc. subst b. simpl. f_equal. now apply IH.
Qed.

Lemma prefix_app_weaken (p s t : string) :
  String.prefix p s = true -> String.prefix p (s ++ t) = true.
Proof.
  revert s. induction p as [|c p IH]; intros s H.
  - apply prefix_nil.
  - destruct s as [|b s]; [discriminate|].
    rewrite prefix_cons in H. apply andb_prop in H as [Hc Hp].
    cbn [append]. rewrite prefix_cons, Hc. simpl. now apply IH.
Qed.

Lemma length_app (a b : string) :
  String.length (a ++ b) = (String.length a + String.length b)%nat.
Proof. induction a; simpl; congruence. Qed.

Lemma app_assoc (a b c : string) : (a ++ b) ++ c = a ++ (b ++ c).
Proof. induction a; simpl; congruence. Qed.

Lemma app_empty_r (a : string) : a ++ EmptyString = a.
Proof. induction a; simpl; congruence. Qed.

Lemma len_app (a b : string) : len (a ++ b) = len a + len b.
Proof. unfold len. rewrite length_app. lia. Qed.

Lemma len_nonneg (a : string) : 0 <= len a.
Proof. unfold len. lia. Qed.

Lemma drop_app (a b : string) : drop (String.length a) (a ++ b) = b.
Proof. induction a; simpl; auto. Qed.

Lemma drop_app_plus (a b : string) (n : nat) :
  drop (String.length a + n) (a ++ b) = drop n b.
Proof. induction a; simpl; auto. Qed.

Lemma take_app (a b : string) : take (String.length a) (a ++ b) = a.
Proof. induction a; simpl; congruence. Qed.

Lemma drop_all (a : string) (n : nat) :
  (String.length a <= n)%nat -> drop n a = EmptyString.
Proof.
  revert n. induction a as [|c a IH]; intros [|n] H; simpl in *; auto; try lia.
  apply IH. lia.
Qed.

Lemma length_drop (a : string) (n : nat) :
  String.length (drop n a) = (String.length a - n)%nat.
Proof.
  revert n. induction a as [|c a IH]; intros [|n]; simpl; auto.
Qed.

Lemma drop_drop (a : string) (n m : nat) : drop n (drop m a) = drop (m + n) a.
Proof.
  revert m. induction a as [|c a IH]; intros [|m]; simpl; auto.
  now destruct n.
Qed.

Lemma startsWith_0 (s p : string) : startsWith s p 0 = String.prefix p s.
Proof.
  unfold startsWith, clamp. pose proof (len_nonneg s).
  replace (Z.max 0 (Z.min 0 (len s))) with 0 by lia. reflexivity.
Qed.

Lemma rel_index_inside (l k : Z) : 0 <= k <= l -> rel_index l k = k.
Proof.
  intros H. unfold rel_index. destruct (k <? 0) eqn:E; lia.
Qed.

Lemma clamp_inside (l k : Z) : 0 <= k <= l -> clamp l k = k.
Proof. unfold clamp. lia. Qed.

Lemma slice_from_app (a b : string) : slice_from (a ++ b) (len a) = b.
Proof.
  unfold slice_from. rewrite rel_index_inside.
  - unfold len. rewrite Nat2Z.id. apply drop_app.
  - rewrite len_app. pose proof (len_nonneg a). pose proof (len_nonneg b). lia.
Qed.

Lemma slice_app_mid (a b c : string) :
  slice (a ++ b ++ c) (len a) (len a + len b) = b.
Proof.
  unfold slice.
  pose proof (len_nonneg a). pose proof (len_nonneg b). pose proof (len_nonneg c).
  rewrite !rel_index_inside by (rewrite !len_app; lia).
  replace (len a + len b - len a) with (len b) by lia.
  unfold len. rewrite !Nat2Z.id, drop_app. apply take_app.
Qed.

Lemma slice_app_head (a b : string) : slice (a ++ b) 0 (len a) = a.
Proof.
  pose proof (slice_app_mid EmptyString a b) as H. simpl in H.
  exact H.
Qed.

(** The first occurrence of a one-character separator. *)
Lemma find_sep (c : ascii) (a b : string) :
  includes a (String c EmptyString) = false ->
  find (String c EmptyString) (a ++ String c b) = Some (String.length a).
Proof.
  unfold includes. induction a as [|x a IH]; intros H.
  - cbn [append find]. rewrite prefix_cons, Ascii.eqb_refl, prefix_nil.
    reflexivity.
  - cbn [append find] in *. rewrite prefix_cons in *.
    destruct (Ascii.eqb c x); cbn [andb] in *.
    + rewrite prefix_nil in H. discriminate.
    + destruct (find (String c EmptyString) a) eqn:E; [discriminate|].
      rewrite IH by reflexivity. reflexivity.
Qed.

Lemma indexOf_sep (c : ascii) (a b : string) :
  includes a (String c EmptyString) = false ->
  indexOf (a ++ String c b) (String c EmptyString) 0 = len a.
Proof.
  intros H. unfold indexOf.
  rewrite clamp_inside by (pose proof (len_nonneg (a ++ String c b)); lia).
  cbn [Z.to_nat drop Nat.add]. now rewrite find_sep.
Qed.

Lemma len_cons (c : ascii) (s : string) : len (String c s) = 1 + len s.
Proof. unfold len. cbn [String.length]. lia. Qed.

Lemma indexOf_sep_after (c : ascii) (a b r : string) :
  includes b (String c EmptyString) = false ->
  indexOf (a ++ String c (b ++ String c r)) (String c EmptyString) (len a + 1)
  = len a + 1 + len b.
Proof.
  intros H. unfold indexOf.
  pose proof (len_nonneg a). pose proof (len_nonneg (b ++ String c r)).
  rewrite clamp_inside by (rewrite len_app, len_cons; lia).
  replace (Z.to_nat (len a + 1)) with (String.length a + 1)%nat by (unfold len; lia).
  rewrite drop_app_plus. cbn [drop]. rewrite find_sep by assumption.
  unfold len. lia.
Qed.

Lemma app_cons (a : string) (c : ascii) (b : string) :
  a ++ String c b = (a ++ String c EmptyString) ++ b.
Proof. now rewrite app_assoc. Qed.

Lemma len_snoc (a : string) (c : ascii) :
  len (a ++ String c EmptyString) = len a + 1.
Proof. rewrite len_app. reflexivity. Qed.

Lemma slice_from_second (c : ascii) (a b : string) :
  slice_from (a ++ String c b) (len a + 1) = b.
Proof. rewrite app_cons, <- (len_snoc a c). apply slice_from_app. Qed.

Lemma slice_second (c : ascii) (a b r : string) :
  slice (a ++ String c (b ++ String c r)) (len a + 1) (len a + 1 + len b) = b.
Proof. rewrite app_cons, <- (len_snoc a c). apply slice_app_mid. Qed.

Lemma slice_from_third (c : ascii) (a b r : string) :
  slice_from (a ++ String c (b ++ String c r)) (len a + 1 + len b + 1) = r.
Proof.
  rewrite app_cons, (app_cons b), <- app_assoc.
  replace (len a + 1 + len b + 1)
    with (len ((a ++ String c EmptyString) ++ b ++ String c EmptyString))
    by (rewrite len_app, !len_snoc; lia).
  apply slice_from_app.
Qed.

Lemma find_split (p s : string) (k : nat) :
  find p s = Some k ->
  s = take k s ++ p ++ drop (k + String.length p) s.
Proof.
  revert k. induction s as [|c s IH]; intros k H; cbn [find] in H.
  - destruct (String.prefix p EmptyString) eqn:E; [|discriminate].
    injection H as <-. now apply prefix_split.
  - destruct (String.prefix p (String c s)) eqn:E.
    + injection H as <-. now apply prefix_split.
    + destruct (find p s) as [k'|]; [|discriminate].
      injection H as <-. cbn [take drop append Nat.add]. f_equal. now apply IH.
Qed.

Lemma find_app (a p b : string) : find p (a ++ p ++ b) <> None.
Proof.
  induction a as [|c a IH]; cbn [append].
  - destruct (p ++ b) eqn:E; cbn [find]; rewrite <- E, prefix_app; discriminate.
  - cbn [find]. destruct (String.prefix p (String c (a ++ p ++ b))).
    + discriminate.
    + destruct (find p (a ++ p ++ b)); [discriminate | contradiction].
Qed.

(** [includes] decides [contains]. *)
Lemma includes_contains (s p : string) :
  includes s p = true <-> contains s p.
Proof.
  unfold includes, contains. split.
  - destruct (find p s) as [k|] eqn:E; [|discriminate].
    intros _. exists (take k s), (drop (k + String.length p) s).
    now apply find_split.
  - intros (a & b & ->). pose proof (find_app a p b).
    now destruct (find p (a ++ p ++ b)).
Qed.

Lemma find_last_none (p s : string) :
  find p s = None -> find_last p s = None.
Proof.
  induction s as [|c s IH]; cbn [find find_last].
  - now destruct (String.prefix p EmptyString).
  - destruct (String.prefix p (String c s)); [discriminate|].
    destruct (find p s); [discriminate|]. intros _. now rewrite IH.
Qed.

Lemma lastIndexOf_absent (s p : string) :
  includes s p = false -> lastIndexOf s p = -1.
Proof.
  unfold includes, lastIndexOf. destruct (find p s) eqn:E; [discriminate|].
  now rewrite find_last_none.
Qed.

Lemma len_zero (s : string) : len s = 0 -> s = EmptyString.
Proof. destruct s; [reflexivity | rewrite len_cons; pose proof (len_nonneg s); lia]. Qed.

End JsFacts.

Import JsFacts.
(** ** Strict parser *)
Section StrictParser.
Context {host : JsonHost}.
Variable given : option HarmonyDelimiters.
Let d := delims_or_default given.

Lemma apart_no_prefix (a b x : string) :
  apart a b = true -> String.prefix a (b ++ x) = false.
Proof.
  unfold apart. revert b. induction a as [|c a IH]; intros b H.
  - rewrite prefix_nil in H. discriminate.
  - destruct b as [|c' b].
    + rewrite prefix_nil, andb_false_r in H. discriminate.
    + cbn [append]. rewrite !prefix_cons in *.
      rewrite (Ascii.eqb_sym c' c) in H.
      destruct (Ascii.eqb c c'); cbn [andb] in *; [now apply IH | reflexivity].
Qed.

Lemma push_all_app (st : ParseState) (a b : list string) :
  push_all st (a ++ b)%list given =
  match push_all st a given with
  | (st', None) => push_all st' b given
  | r => r
  end.
Proof.
  revert st. induction a as [|t a IH]; intros st; cbn [push_all List.app].
  - reflexivity.
  - destruct (push st t given) as [st' [e|]]; [reflexivity | apply IH].
Qed.

Lemma finish_pending (st : ParseState) :
  snd (finish st) = {| messages := pending st |}.
Proof. unfold finish, pending. now destruct (current st). Qed.

Lemma push_start (st : ParseState) (r : string) :
  isHarmonyRole r = true ->
  push st (start d ++ r) given =
  ({| state_messages := pending st;
      current := Some {| role := r; content := [] |};
      lastStreamingChannel := None;
      expectingPayload := Some false |}, None).
Proof.
  intros Hr. unfold push. fold d.
  rewrite startsWith_0, prefix_app, slice_from_app, Hr. reflexivity.
Qed.

Hypothesis d_ok : unambiguous d = true.

Lemma d_ok_parts :
  String.prefix (start d) (message d) = false /\
  String.prefix (start d) (end_ d) = false /\
  apart (start d) "text:" = true /\ apart (start d) "tool:" = true /\
  String.prefix "text:" (message d) = false /\
  String.prefix "tool:" (message d) = false /\
  String.prefix "text:" (end_ d) = false /\
  String.prefix "tool:" (end_ d) = false.
Proof.
  pose proof d_ok as H. unfold unambiguous in H.
  repeat (apply andb_prop in H as [H ?]).
  repeat match goal with
         | X : negb _ = true |- _ => apply negb_true_iff in X
         end.
  repeat split; assumption.
Qed.

Lemma push_message_marker (st : ParseState) :
  exists st', push st (message d) given = (st', None) /\
              state_messages st' = state_messages st /\
              current st' = current st.
Proof.
  destruct d_ok_parts as (Hm & _).
  unfold push. fold d. rewrite !startsWith_0, Hm.
  destruct (String.prefix CHANNEL_MARKER (message d)).
  - destruct (0 <? len (slice_from (message d) (len CHANNEL_MARKER)));
      eexists; repeat split.
  - rewrite String.eqb_refl. eexists; repeat split.
Qed.

Lemma push_end_marker (st : ParseState) :
  exists st', push st (end_ d) given = (st', None) /\
              pending st' = pending st.
Proof.
  destruct d_ok_parts as (_ & He & _).
  unfold push. fold d. rewrite !startsWith_0, He.
  destruct (String.prefix CHANNEL_MARKER (end_ d)).
  - destruct (0 <? len (slice_from (end_ d) (len CHANNEL_MARKER)));
      eexists; repeat split.
  - destruct (end_ d =? message d)%string.
    + eexists; repeat split.
    + rewrite String.eqb_refl. eexists; split; [reflexivity|].
      unfold pending. cbn. now destruct (current st).
Qed.

Lemma payload_not_marker (p x m : string) :
  String.prefix p m = false -> ((p ++ x) =? m)%string = false.
Proof.
  intros H. apply String.eqb_neq. intros E. subst m.
  now rewrite prefix_app in H.
Qed.

Lemma channel_colon_free (ch : string) :
  isHarmonyChannel ch = true -> includes ch ":" = false.
Proof.
  unfold isHarmonyChannel. intros H.
  repeat (apply orb_prop in H as [H|H]);
    apply String.eqb_eq in H; subst ch; reflexivity.
Qed.

Lemma push_text (st : ParseState) (cur : HarmonyMessage) (ch txt : string) :
  current st = Some cur ->
  isHarmonyChannel ch = true ->
  exists st', push st ("text:" ++ ch ++ ":" ++ txt) given = (st', None) /\
              state_messages st' = state_messages st /\
              current st' =
                Some {| role := role cur;
                        content := (content cur ++ [TextChunk txt ch])%list |}.
Proof.
  intros Hcur Hch.
  destruct d_ok_parts as (_ & _ & Ht & _ & Htm & _ & Hte & _).
  unfold push. fold d.
  rewrite startsWith_0, (apart_no_prefix _ _ _ Ht).
  rewrite startsWith_0.
  replace (String.prefix CHANNEL_MARKER ("text:" ++ ch ++ ":" ++ txt))
    with false by reflexivity.
  rewrite (payload_not_marker _ _ _ Htm), (payload_not_marker _ _ _ Hte), Hcur.
  rewrite startsWith_0, prefix_app, slice_from_app.
  change (ch ++ ":" ++ txt) with (ch ++ String ":" txt).
  rewrite (indexOf_sep _ _ _ (channel_colon_free _ Hch)).
  pose proof (len_nonneg ch) as Hlen.
  destruct (len ch <? 0) eqn:E; [lia|].
  rewrite slice_app_head, Hch. cbn [negb].
  replace (String ":" txt) with (":" ++ txt) by reflexivity.
  rewrite <- app_assoc.
  replace (len ch + 1) with (len (ch ++ ":")) by (rewrite len_app; reflexivity).
  rewrite slice_from_app.
  eexists; repeat split.
Qed.

Lemma push_tool (st : ParseState) (cur : HarmonyMessage) (call : HarmonyToolCall) :
  current st = Some cur ->
  args_round_trip call ->
  colon_free (namespace call) = true ->
  colon_free (name call) = true ->
  exists st',
    push st (concat_undefined
               ("tool:" ++ namespace call ++ ":" ++ name call ++ ":")
               (JSON_stringify (arguments call))) given = (st', None) /\
    state_messages st' = state_messages st /\
    current st' =
      Some {| role := role cur;
              content := (content cur ++ [ToolCallChunk call])%list |}.
Proof.
  intros Hcur (js & Hs & Hp) Hns Hnm.
  destruct call as [ns nm args]. cbn [namespace name arguments] in *.
  apply negb_true_iff in Hns, Hnm.
  destruct d_ok_parts as (_ & _ & _ & Ht & _ & Htm & _ & Hte).
  rewrite Hs. cbn [concat_undefined].
  replace (("tool:" ++ ns ++ ":" ++ nm ++ ":") ++ js)
    with ("tool:" ++ (ns ++ String ":" (nm ++ String ":" js)))
    by (rewrite !app_assoc; reflexivity).
  unfold push. fold d.
  rewrite startsWith_0, (apart_no_prefix _ _ _ Ht).
  rewrite startsWith_0.
  replace (String.prefix CHANNEL_MARKER
             ("tool:" ++ ns ++ String ":" (nm ++ String ":" js)))
    with false by reflexivity.
  rewrite (payload_not_marker _ _ _ Htm), (payload_not_marker _ _ _ Hte), Hcur.
  rewrite startsWith_0.
  replace (String.prefix "text:"
             ("tool:" ++ ns ++ String ":" (nm ++ String ":" js)))
    with false by reflexivity.
  rewrite startsWith_0, prefix_app, slice_from_app.
  rewrite (indexOf_sep _ _ _ Hns), (indexOf_sep_after _ _ _ _ Hnm).
  pose proof (len_nonneg ns). pose proof (len_nonneg nm).
  destruct (len ns <? 0) eqn:E1; [lia|].
  destruct (len ns + 1 + len nm <? 0) eqn:E2; [lia|]. cbn [orb].
  rewrite slice_app_head, slice_second, slice_from_third, Hp.
  eexists; repeat split.
Qed.

Lemma push_chunks (chunks : list HarmonyContentChunk) :
  forall (st : ParseState) (cur : HarmonyMessage),
    current st = Some cur ->
    Forall chunk_supported chunks ->
    Forall chunk_colon_free chunks ->
    exists st',
      push_all st (flat_map (render_chunk d) chunks) given = (st', None) /\
      state_messages st' = state_messages st /\
      current st' =
        Some {| role := role cur; content := (content cur ++ chunks)%list |}.
Proof.
  induction chunks as [|c chunks IH]; intros st cur Hcur Hs Hc.
  - exists st. cbn. rewrite List.app_nil_r. destruct cur. repeat split; assumption.
  - inversion Hs as [|? ? Hs1 Hs2]; inversion Hc as [|? ? Hc1 Hc2]; subst.
    cbn [flat_map render_chunk List.app push_all].
    destruct (push_message_marker st) as (st1 & E1 & M1 & C1).
    rewrite E1. rewrite <- C1 in Hcur.
    assert (exists st2,
               push st1
                 match c with
                 | TextChunk text channel => "text:" ++ channel ++ ":" ++ text
                 | ToolCallChunk call =>
                     concat_undefined
                       ("tool:" ++ namespace call ++ ":" ++ name call ++ ":")
                       (JSON_stringify (arguments call))
                 end given = (st2, None) /\
               state_messages st2 = state_messages st1 /\
               current st2 =
                 Some {| role := role cur;
                         content := (content cur ++ [c])%list |})
      as (st2 & E2 & M2 & C2).
    { destruct c as [txt ch | call].
      - now apply push_text.
      - destruct Hc1. now apply push_tool. }
    rewrite E2.
    destruct (IH st2 _ C2 Hs2 Hc2) as (st3 & E3 & M3 & C3).
    exists st3. split; [exact E3|]. split; [congruence|].
    rewrite C3. cbn [role content]. now rewrite <- List.app_assoc.
Qed.

Lemma push_message (st : ParseState) (m : HarmonyMessage) :
  isHarmonyRole (role m) = true ->
  Forall chunk_supported (content m) ->
  Forall chunk_colon_free (content m) ->
  exists st',
    push_all st (render_message d m) given = (st', None) /\
    pending st' = (pending st ++ [m])%list.
Proof.
  intros Hr Hs Hc. unfold render_message. cbn [push_all].
  rewrite (push_start st _ Hr), push_all_app.
  destruct (push_chunks (content m)
              {| state_messages := pending st;
                 current := Some {| role := role m; content := [] |};
                 lastStreamingChannel := None;
                 expectingPayload := Some false |}
              {| role := role m; content := [] |} eq_refl Hs Hc)
    as (st1 & E1 & M1 & C1).
  rewrite E1. cbn [push_all].
  destruct (push_end_marker st1) as (st2 & E2 & P2).
  rewrite E2. exists st2. split; [reflexivity|].
  rewrite P2. unfold pending at 1. rewrite C1, M1.
  cbn. now destruct m.
Qed.

Lemma push_messages (ms : list HarmonyMessage) :
  forall st : ParseState,
    Forall (fun m => isHarmonyRole (role m) = true /\
                     Forall chunk_supported (content m)) ms ->
    Forall (fun m => Forall chunk_colon_free (content m)) ms ->
    exists st',
      push_all st (flat_map (render_message d) ms) given = (st', None) /\
      pending st' = (pending st ++ ms)%list.
Proof.
  induction ms as [|m ms IH]; intros st Hs Hc.
  - exists st. cbn. now rewrite List.app_nil_r.
  - inversion Hs as [|? ? [Hr Hs1] Hs2]; inversion Hc as [|? ? Hc1 Hc2]; subst.
    cbn [flat_map]. rewrite push_all_app.
    destruct (push_message st m Hr Hs1 Hc1) as (st1 & E1 & P1).
    rewrite E1.
    destruct (IH st1 Hs2 Hc2) as (st2 & E2 & P2).
    exists st2. split; [exact E2|].
    rewrite P2, P1, <- List.app_assoc. reflexivity.
Qed.

End StrictParser.

(** C1 (amended): with delimiters that keep the rendered tokens apart,
    a conversation of supported roles and structured channels, whose
    tool arguments survive the JSON round trip and whose tool namespaces
    and names hold no [":"], is returned unchanged by [parseTokens] from
    the tokens [renderConversation] produced with the same delimiters. *)
Theorem render_parse_round_trip {host : JsonHost}
  (conversation : HarmonyConversation) (options : option RenderOptions)
  (given : option HarmonyDelimiters) :
  delims_or_default (options_delimiters options) = delims_or_default given ->
  unambiguous (delims_or_default given) = true ->
  conversation_supported conversation ->
  tools_colon_free conversation ->
  parseTokens (renderConversation conversation options) given
  = Normal conversation.
Proof.
  intros Hsame Hd Hs Hc. unfold parseTokens, renderConversation.
  rewrite Hsame.
  destruct (push_messages given Hd (messages conversation) createParser Hs Hc)
    as (st & E & P).
  rewrite E, finish_pending, P. now destruct conversation.
Qed.

Lemma render_parse_round_trip_witness :
  parseTokens (renderConversation sample_conversation None) None
  = Normal sample_conversation.
Proof.
  apply (render_parse_round_trip sample_conversation None None).
  - reflexivity.
  - reflexivity.
  - repeat constructor. exists "true". split; reflexivity.
  - repeat constructor.
Defined.

Lemma render_parse_colon_counterexample :
  (conversation_supported colon_conversation /\
   renderConversation colon_conversation None
   = ["<|start|>assistant"; "<|message|>"; "tool:a:b:c:null"; "<|end|>"] /\
   parseTokens (renderConversation colon_conversation None) None
   = Throw (ThrownHarmonyError
              (raise "INVALID_TOOL_ARGS" "Invalid JSON args"
                 [("token", "tool:a:b:c:null"); ("args", "c:null")]))) /\
  (conversation_supported greeting_conversation /\
   renderConversation greeting_conversation
     (Some {| delimiters := Some t_delims |})
   = ["tuser"; "m"; "text:message:hi"; "e"] /\
   parseTokens
     (renderConversation greeting_conversation
        (Some {| delimiters := Some t_delims |})) (Some t_delims)
   = Throw (ThrownHarmonyError
              (raise "INVALID_ROLE" "Unknown role: ext:message:hi"
                 [("token", "text:message:hi"); ("role", "ext:message:hi")]))).
Proof.
  split; split.
  - repeat constructor. exists "null". split; reflexivity.
  - split; reflexivity.
  - repeat constructor.
  - split; reflexivity.
Qed.

(** C2 (amended): while no message is open, a channel-declaration token
    that does not begin with the start marker raises nothing: the parser
    stays idle, its messages are unchanged, and only the declared name
    is recorded when it is not empty.  ContentOutsideMessage is raised,
    with the state unchanged, by every token that begins with neither
    the start marker nor the channel marker and is neither the message
    nor the end marker. *)
Theorem idle_channel_token_accepted {host : JsonHost}
  (state : ParseState) (given : option HarmonyDelimiters) :
  current state = None ->
  (forall token,
      startsWith token (start (delims_or_default given)) 0 = false ->
      startsWith token CHANNEL_MARKER 0 = true ->
      push state token given =
      (if 0 <? len (slice_from token (len CHANNEL_MARKER))
       then {| state_messages := state_messages state;
               current := None;
               lastStreamingChannel :=
                 Some (slice_from token (len CHANNEL_MARKER));
               expectingPayload := expectingPayload state |}
       else state, None)) /\
  (forall token,
      startsWith token (start (delims_or_default given)) 0 = false ->
      startsWith token CHANNEL_MARKER 0 = false ->
      token <> message (delims_or_default given) ->
      token <> end_ (delims_or_default given) ->
      push state token given =
      (state, Some (raise "UNEXPECTED_TOKEN"
                      ("Content outside of a message: " ++ token)
                      [("token", token)]))).
Proof.
  intros Hidle. split; intros token Hs Hc.
  - unfold push. rewrite Hs, Hc, Hidle. reflexivity.
  - intros Hm He. unfold push. rewrite Hs, Hc, Hidle.
    apply String.eqb_neq in Hm, He. rewrite Hm, He. reflexivity.
Qed.

Lemma idle_channel_token_accepted_witness :
  push createParser "<|channel|>analysis" None =
  ({| state_messages := []; current := None;
      lastStreamingChannel := Some "analysis";
      expectingPayload := None |}, None) /\
  push createParser "text:message:orphaned" None =
  (createParser,
   Some (raise "UNEXPECTED_TOKEN"
           "Content outside of a message: text:message:orphaned"
           [("token", "text:message:orphaned")])).
Proof.
  destruct (idle_channel_token_accepted createParser None eq_refl) as [A B].
  split.
  - apply (A "<|channel|>analysis"); reflexivity.
  - apply (B "text:message:orphaned"); [reflexivity | reflexivity | | ];
      discriminate.
Defined.

Lemma idle_channel_token_counterexample :
  push createParser "<|channel|>analysis" None =
  ({| state_messages := []; current := None;
      lastStreamingChannel := Some "analysis";
      expectingPayload := None |}, None) /\
  parseTokens ["<|channel|>analysis"] None = Normal {| messages := [] |}.
Proof. split; reflexivity. Qed.

(** C5: [tryParseTokens] returns [ok] with the conversation exactly when
    [parseTokens] returns it, and [error] with the very [HarmonyError]
    exactly when [parseTokens] throws it; [parseTokens] throws nothing
    else. *)
Theorem tryParseTokens_same_parse {host : JsonHost}
  (tokens : list string) (given : option HarmonyDelimiters) :
  (forall c, tryParseTokens tokens given = TryOk c <->
             parseTokens tokens given = Normal c) /\
  (forall e, tryParseTokens tokens given = TryError e <->
             parseTokens tokens given = Throw (ThrownHarmonyError e)) /\
  ((exists c, parseTokens tokens given = Normal c) \/
   (exists e, parseTokens tokens given = Throw (ThrownHarmonyError e))).
Proof.
  unfold tryParseTokens, parseTokens.
  destruct (push_all createParser tokens given) as [st [e|]].
  - repeat split; try (intros H; inversion H; reflexivity); try discriminate.
    right. now exists e.
  - repeat split; try (intros H; inversion H; reflexivity); try discriminate.
    left. eexists; reflexivity.
Qed.

(** C9: a start-marker token whose role suffix is outside the closed
    set raises InvalidRole and leaves the state as it was: an open
    message is neither closed nor appended, and [finish] still returns
    it, with its content, after the messages closed before. *)
Theorem invalid_role_push_atomic {host : JsonHost}
  (state : ParseState) (token : string) (given : option HarmonyDelimiters) :
  startsWith token (start (delims_or_default given)) 0 = true ->
  isHarmonyRole (slice_from token (len (start (delims_or_default given))))
  = false ->
  push state token given =
  (state,
   Some (raise "INVALID_ROLE"
           ("Unknown role: " ++
            slice_from token (len (start (delims_or_default given))))
           [("token", token);
            ("role", slice_from token (len (start (delims_or_default given))))]))
  /\ finish (fst (push state token given)) = finish state
  /\ (forall m, current state = Some m ->
        messages (snd (finish (fst (push state token given))))
        = (state_messages state ++ [m])%list).
Proof.
  intros Hs Hr.
  assert (push state token given =
          (state,
           Some (raise "INVALID_ROLE"
                   ("Unknown role: " ++
                    slice_from token (len (start (delims_or_default given))))
                   [("token", token);
                    ("role",
                     slice_from token
                       (len (start (delims_or_default given))))]))) as E.
  { unfold push. rewrite Hs, Hr. reflexivity. }
  rewrite E. cbn [fst]. repeat split.
  intros m Hm. unfold finish. rewrite Hm. reflexivity.
Qed.

Lemma invalid_role_push_atomic_witness :
  push open_user_state "<|start|>invalid" None =
  (open_user_state,
   Some (raise "INVALID_ROLE" "Unknown role: invalid"
           [("token", "<|start|>invalid"); ("role", "invalid")])) /\
  messages (snd (finish (fst (push open_user_state "<|start|>invalid" None))))
  = [ {| role := "user"; content := [TextChunk "Hi" "message"] |} ].
Proof.
  destruct (invalid_role_push_atomic open_user_state "<|start|>invalid" None
              eq_refl eq_refl) as (A & _ & C).
  split; [exact A | exact (C _ eq_refl)].
Defined.

(** ** Tokenizer *)
Section Tokenizer.
Variable delims : HarmonyDelimiters.
Variable input : string.

Lemma indexOf_progress (p : string) (i : Z) :
  0 <= i <= len input ->
  startsWith input p i = false ->
  indexOf input p i = -1 \/ i < indexOf input p i.
Proof.
  intros Hi Hs. unfold startsWith, indexOf in *.
  rewrite clamp_inside in * by assumption.
  destruct (drop (Z.to_nat i) input) as [|c s] eqn:E; cbn [find] in *.
  - rewrite Hs. now left.
  - rewrite Hs. destruct (find p s); cbn [option_map]; [right; lia | now left].
Qed.

Lemma findNextDelimiterIndex_progress (i : Z) :
  0 <= i < len input ->
  startsWith input (start delims) i = false ->
  startsWith input (message delims) i = false ->
  startsWith input (end_ delims) i = false ->
  i < findNextDelimiterIndex input i delims.
Proof.
  intros Hi H1 H2 H3. unfold findNextDelimiterIndex.
  assert (0 <= i <= len input) as Hi' by lia.
  destruct (indexOf_progress _ _ Hi' H1) as [E1|E1];
    destruct (indexOf_progress _ _ Hi' H2) as [E2|E2];
    destruct (indexOf_progress _ _ Hi' H3) as [E3|E3];
    cbn [filter];
    repeat match goal with
           | |- context [?x >=? 0] => destruct (Z.geb_spec x 0); try lia
           end;
    cbn [fold_left];
    repeat match goal with
           | |- context [?x <? ?y] => destruct (Z.ltb_spec x y)
           end; lia.
Qed.

Lemma scan_role_ge (j : Z) : j <= scan_role input j.
Proof. unfold scan_role. lia. Qed.

Hypothesis nonempty_markers : markers_nonempty delims = true.

Lemma tokenize_loop_ends (fuel : nat) :
  forall (i : Z) (tokens : list string),
    0 <= i ->
    (Z.to_nat (len input - i) < fuel)%nat ->
    exists result, tokenize_loop fuel delims input i tokens = Some result.
Proof.
  pose proof nonempty_markers as Hne. unfold markers_nonempty in Hne.
  apply andb_prop in Hne as [Hne He]. apply andb_prop in Hne as [Hs Hm].
  apply Z.ltb_lt in Hs, Hm, He.
  induction fuel as [|fuel IH]; intros i tokens Hi Hfuel; [lia|].
  cbn [tokenize_loop].
  destruct (Z.ltb_spec i (len input)) as [Hlt|Hge]; [|eexists; reflexivity].
  destruct (startsWith input (start delims) i) eqn:E1.
  { pose proof (scan_role_ge (i + len (start delims))). apply IH; lia. }
  destruct (startsWith input (message delims) i) eqn:E2.
  { apply IH; lia. }
  destruct (startsWith input (end_ delims) i) eqn:E3.
  { apply IH; lia. }
  pose proof (findNextDelimiterIndex_progress i (conj Hi Hlt) E1 E2 E3).
  apply IH; lia.
Qed.

End Tokenizer.

(** C8 (amended): with delimiters whose three markers are not empty the
    tokenizer returns a token list for every input, and with the
    default delimiters the sample string yields its four tokens. *)
Theorem tokenizer_returns (input : string) (given : option HarmonyDelimiters) :
  markers_nonempty (delims_or_default given) = true ->
  (exists tokens, tokenizeCompletionString input given = Some tokens) /\
  (exists tokens, tokenizeCompletionString input None = Some tokens) /\
  tokenizeCompletionString "<|start|>user<|message|>Hello<|end|>" None
  = Some ["<|start|>user"; "<|message|>"; "Hello"; "<|end|>"].
Proof.
  intros H. unfold tokenizeCompletionString. repeat split.
  - apply tokenize_loop_ends; [assumption | lia |].
    pose proof (len_nonneg input). unfold len in *. lia.
  - apply tokenize_loop_ends; [reflexivity | lia |].
    pose proof (len_nonneg input). unfold len in *. lia.
Qed.

Lemma tokenizer_returns_witness :
  (exists tokens,
      tokenizeCompletionString "<<S>>user<<M>>Hello<<E>>"
        (Some {| start := "<<S>>"; message := "<<M>>"; end_ := "<<E>>" |})
      = Some tokens) /\
  (exists tokens,
      tokenizeCompletionString "<<S>>user<<M>>Hello<<E>>" None = Some tokens) /\
  tokenizeCompletionString "<|start|>user<|message|>Hello<|end|>" None
  = Some ["<|start|>user"; "<|message|>"; "Hello"; "<|end|>"].
Proof.
  apply (tokenizer_returns "<<S>>user<<M>>Hello<<E>>"
           (Some {| start := "<<S>>"; message := "<<M>>"; end_ := "<<E>>" |})).
  reflexivity.
Defined.

Lemma empty_start_stalls (fuel : nat) (tokens : list string) :
  tokenize_loop fuel empty_start_delims "1" 0 tokens = None.
Proof.
  revert tokens. induction fuel as [|fuel IH]; intros tokens.
  - reflexivity.
  - cbn [tokenize_loop].
    replace (0 <? len "1") with true by reflexivity.
    replace (startsWith "1" (start empty_start_delims) 0) with true
      by reflexivity.
    replace (scan_role "1" (0 + len (start empty_start_delims))) with 0
      by reflexivity.
    apply IH.
Qed.

Lemma tokenizer_empty_marker_counterexample :
  tokenizeCompletionString "1" (Some empty_start_delims) = None /\
  (forall fuel, tokenize_loop fuel empty_start_delims "1" 0 [] = None).
Proof.
  split; [reflexivity | intros fuel; apply empty_start_stalls].
Qed.

(** ** Format detector and channel extractors *)

(** C4: the detector returns a boolean for every value: [false] for a
    missing, null or non-string value and for the empty string, and for
    a non-empty string [true] exactly when the string contains the start
    or the channel marker, and the channel marker, and the message or
    the end marker. *)
Theorem isHarmonyFormat_detects (given : option HarmonyDelimiters) :
  isHarmonyFormat JsUndefined given = false /\
  isHarmonyFormat JsNull given = false /\
  (forall b, isHarmonyFormat (JsBoolean b) given = false) /\
  (forall n, isHarmonyFormat (JsNumber n) given = false) /\
  isHarmonyFormat JsObject given = false /\
  isHarmonyFormat (JsString EmptyString) given = false /\
  (forall s, s <> EmptyString ->
     (isHarmonyFormat (JsString s) given = true <->
      (contains s (start (delims_or_default given)) \/
       contains s CHANNEL_MARKER) /\
      contains s CHANNEL_MARKER /\
      (contains s (message (delims_or_default given)) \/
       contains s (end_ (delims_or_default given))))).
Proof.
  do 6 (split; [reflexivity|]).
  intros s Hs. split.
  - intros H. cbn [isHarmonyFormat] in H.
    destruct (len s =? 0); [discriminate|].
    apply andb_prop in H as [H H3]. apply andb_prop in H as [H1 H2].
    apply orb_prop in H1, H3.
    rewrite <- !includes_contains. tauto.
  - intros (H1 & H2 & H3). rewrite <- !includes_contains in *.
    cbn [isHarmonyFormat].
    destruct (Z.eqb_spec (len s) 0) as [E|E].
    + exfalso. apply Hs. now apply len_zero.
    + rewrite H2.
      destruct H1 as [-> | _], H3 as [-> | ->];
        rewrite ?orb_true_r; reflexivity.
Qed.

Lemma safeExtractChannel_absent (input channel : string) :
  includes input ("<|channel|>" ++ channel) = false ->
  safeExtractChannel input channel = EmptyString.
Proof.
  intros H. unfold safeExtractChannel.
  now rewrite (lastIndexOf_absent _ _ H).
Qed.

(** ** Streaming extractor *)
Section Counting.
Variable c : ascii.
Variable q : string.
Hypothesis head_not_in_tail : all_chars (fun x => negb (Ascii.eqb x c)) q = true.

Lemma occurrences_skip (u t : string) :
  all_chars (fun x => negb (Ascii.eqb x c)) u = true ->
  occurrences (String c q) (u ++ t) = occurrences (String c q) t.
Proof.
  induction u as [|x u IH]; intros H; [reflexivity|].
  cbn [all_chars] in H. apply andb_prop in H as [Hx Hu].
  cbn [append occurrences]. rewrite prefix_cons.
  apply negb_true_iff in Hx. rewrite Ascii.eqb_sym, Hx. cbn. now apply IH.
Qed.

Lemma occurrences_at_match (s : string) :
  String.prefix (String c q) s = true ->
  occurrences (String c q) s
  = S (occurrences (String c q) (drop (String.length (String c q)) s)).
Proof.
  intros H. rewrite (prefix_split _ _ H) at 1.
  cbn [append occurrences]. rewrite prefix_cons, Ascii.eqb_refl, prefix_app.
  cbn. f_equal. now apply occurrences_skip.
Qed.

Lemma literal_matches_count (fuel : nat) :
  forall (s : string) (base : nat),
    (String.length s <= fuel)%nat ->
    List.length (literal_matches_from fuel (String c q) s base)
    = occurrences (String c q) s.
Proof.
  induction fuel as [|fuel IH]; intros s base Hlen.
  - destruct s; [reflexivity | cbn in Hlen; lia].
  - destruct s as [|x s]; [reflexivity|].
    cbn [literal_matches_from].
    destruct (String.prefix (String c q) (String x s)) eqn:E.
    + rewrite (occurrences_at_match _ E). cbn [List.length]. f_equal.
      apply IH. rewrite length_drop. cbn [String.length] in *. lia.
    + cbn [occurrences]. rewrite E. apply IH. cbn [String.length] in Hlen. lia.
Qed.

End Counting.

Lemma start_matches_count (b : string) :
  List.length (literal_matches "<|start|>" b) = occurrences "<|start|>" b.
Proof. apply literal_matches_count; [reflexivity | lia]. Qed.

Lemma end_matches_count (b : string) :
  List.length (literal_matches "<|end|>" b) = occurrences "<|end|>" b.
Proof. apply literal_matches_count; [reflexivity | lia]. Qed.

Lemma occurrences_absent (p s : string) :
  includes s p = false -> occurrences p s = O.
Proof.
  unfold includes. induction s as [|x s IH]; cbn [find occurrences].
  - now destruct (String.prefix p EmptyString).
  - destruct (String.prefix p (String x s)); [discriminate|].
    destruct (find p s); [discriminate|]. intros _. now rewrite IH.
Qed.

Section Stream.
Context {regexp : RegExpHost}.

Lemma detect_buffer (self : HarmonyStreamParser) :
  buffer (detectCurrentChannel self) = buffer self.
Proof.
  unfold detectCurrentChannel.
  destruct (last (map Some (channel_matches (buffer self))) None) as [ch|];
    [destruct (0 <? len ch)|]; reflexivity.
Qed.

(** [parseCurrentBuffer], by its parts. *)
Lemma parseCurrentBuffer_parts (self : HarmonyStreamParser) :
  parseCurrentBuffer self =
  if negb (has_markers (buffer self))
  then (self, Some (plain_snapshot (buffer self)))
  else (detectCurrentChannel self,
        window_snapshot (buffer (detectCurrentChannel self))
          (currentChannel (detectCurrentChannel self))).
Proof.
  unfold parseCurrentBuffer, has_markers.
  destruct (negb _); [reflexivity|].
  cbv zeta.
  destruct (currentChannel (detectCurrentChannel self)) as [ch|] eqn:E.
  - unfold window_snapshot.
    fold (message_window (buffer (detectCurrentChannel self))).
    destruct (collectLastChannelText _ ch); reflexivity.
  - reflexivity.
Qed.

Lemma window_snapshot_fields (b : string) (active : option string)
  (r : StreamParseResult) :
  window_snapshot b active = Some r ->
  bufferContent r = b /\ isComplete r = complete_flag b /\
  lastChannelDetected r = active.
Proof.
  unfold window_snapshot. destruct active as [ch|].
  - destruct (collectLastChannelText (message_window b) ch); [|discriminate].
    intros [= <-]. repeat split.
  - intros [= <-]. repeat split.
Qed.

Lemma parse_buffer (self : HarmonyStreamParser) :
  buffer (fst (parseCurrentBuffer self)) = buffer self /\
  forall r, snd (parseCurrentBuffer self) = Some r ->
            bufferContent r = buffer self.
Proof.
  rewrite parseCurrentBuffer_parts.
  destruct (negb (has_markers (buffer self))); cbn [fst snd].
  - split; [reflexivity|]. now intros r [= <-].
  - split; [apply detect_buffer|]. intros r H.
    apply window_snapshot_fields in H as (H & _). now rewrite detect_buffer in H.
Qed.

Lemma addContent_buffer (self : HarmonyStreamParser) (content : string) :
  buffer (fst (addContent self content)) = buffer self ++ content /\
  forall r, snd (addContent self content) = Some r ->
            bufferContent r = buffer self ++ content.
Proof. unfold addContent. apply parse_buffer. Qed.

Lemma concat_cons (x : string) (xs : list string) :
  String.concat EmptyString (x :: xs) = x ++ String.concat EmptyString xs.
Proof. destruct xs; cbn; [now rewrite app_empty_r | reflexivity]. Qed.

Lemma concat_snoc (xs : list string) (x : string) :
  String.concat EmptyString (xs ++ [x]) = String.concat EmptyString xs ++ x.
Proof.
  induction xs as [|y xs IH].
  - reflexivity.
  - change ((y :: xs) ++ [x])%list with (y :: (xs ++ [x]))%list.
    now rewrite !concat_cons, IH, app_assoc.
Qed.

Lemma addContents_buffer (chunks : list string) :
  forall self,
    buffer (fst (addContents self chunks))
    = buffer self ++ String.concat EmptyString chunks.
Proof.
  induction chunks as [|c chunks IH]; intros self.
  - cbn. now rewrite app_empty_r.
  - cbn [addContents]. destruct (addContent self c) as [s1 r1] eqn:E1.
    specialize (IH s1).
    destruct (addContents s1 chunks) as [s2 rs]. cbn [fst] in *.
    rewrite IH, concat_cons, <- app_assoc. f_equal.
    pose proof (addContent_buffer self c) as [H _]. now rewrite E1 in H.
Qed.


Lemma complete_flag_counts (b : string) :
  complete_flag b = true <->
  occurrences "<|start|>" b = occurrences "<|end|>" b /\
  (0 < occurrences "<|start|>" b)%nat.
Proof.
  unfold complete_flag. rewrite start_matches_count, end_matches_count.
  rewrite andb_true_iff, Nat.eqb_eq, Nat.ltb_lt. tauto.
Qed.

(** C3: the snapshot [addContent] returns is complete exactly when the
    start marker occurs in the whole buffer as often as the end marker,
    and at least once; the call returns unless the detected channel
    name holds regular-expression syntax; on the sample buffer the flag
    is false, stays false after one end marker and is true after the
    second. *)
Theorem isComplete_counts_markers (self : HarmonyStreamParser) (content : string) :
  (forall r,
      snd (addContent self content) = Some r ->
      (isComplete r = true <->
       occurrences "<|start|>" (buffer self ++ content)
       = occurrences "<|end|>" (buffer self ++ content) /\
       (0 < occurrences "<|start|>" (buffer self ++ content))%nat)) /\
  (snd (addContent self content) = None ->
   exists ch, currentChannel (fst (addContent self content)) = Some ch /\
              literal_channel ch = false) /\
  map (option_map isComplete)
    (snd (addContents new_parser [two_starts; "<|end|>"; "<|end|>"]))
  = [Some false; Some false; Some true].
Proof.
  split; [|split].
  - intros r. unfold addContent. rewrite parseCurrentBuffer_parts.
    cbn [buffer]. set (b := buffer self ++ content).
    destruct (has_markers b) eqn:Em; cbn [negb snd].
    + intros H. apply window_snapshot_fields in H as (_ & H & _).
      rewrite detect_buffer in H. cbn [buffer] in H. fold b in H.
      rewrite H. apply complete_flag_counts.
    + intros [= <-]. cbn [plain_snapshot isComplete].
      unfold has_markers in Em.
      apply orb_false_elim in Em as [Em _]. apply orb_false_elim in Em as [Es _].
      rewrite (occurrences_absent _ _ Es). split; [discriminate | lia].
  - unfold addContent. rewrite parseCurrentBuffer_parts.
    destruct (negb _); cbn [fst snd]; [discriminate|].
    unfold window_snapshot.
    destruct (currentChannel (detectCurrentChannel _)) as [ch|];
      [|discriminate].
    unfold collectLastChannelText.
    destruct (literal_channel ch) eqn:El; [discriminate|].
    intros _. exists ch. now split.
  - vm_compute. reflexivity.
Qed.
Lemma span_le (f : ascii -> bool) (s : string) :
  (span f s <= String.length s)%nat.
Proof. induction s as [|x s IH]; cbn; [lia | destruct (f x); lia]. Qed.

Lemma length_take (n : nat) (s : string) :
  (n <= String.length s)%nat -> String.length (take n s) = n.
Proof.
  revert s. induction n as [|n IH]; intros [|x s] H; cbn in *; try lia.
  f_equal. apply IH. lia.
Qed.

Lemma channel_matches_nonempty (fuel : nat) :
  forall s x, In x (channel_matches_from fuel s) -> 0 < len x.
Proof.
  induction fuel as [|fuel IH]; intros s x H; [contradiction|].
  destruct s as [|y s]; [contradiction|]. cbn [channel_matches_from] in H.
  destruct (String.prefix CHANNEL_MARKER (String y s)); [|now apply IH in H].
  destruct (Nat.ltb_spec 0
              (span channel_name_char
                 (drop (String.length CHANNEL_MARKER) (String y s))))
    as [Hn|Hn]; [|now apply IH in H].
  destruct H as [<-|H]; [|now apply IH in H].
  unfold len. rewrite length_take by apply span_le. lia.
Qed.

Lemma channel_matches_none (fuel : nat) :
  forall s, has_candidate s = false -> channel_matches_from fuel s = [].
Proof.
  induction fuel as [|fuel IH]; intros s H; [reflexivity|].
  destruct s as [|y s]; [reflexivity|].
  cbn [has_candidate] in H. apply orb_false_elim in H as [Hc Hs].
  unfold candidate_at in Hc. cbn [channel_matches_from].
  destruct (String.prefix CHANNEL_MARKER (String y s)); [|now apply IH].
  cbn [andb] in Hc. rewrite Hc. now apply IH.
Qed.

Lemma channel_matches_some (fuel : nat) :
  forall s, channel_matches_from fuel s = [] ->
            (String.length s <= fuel)%nat ->
            has_candidate s = false.
Proof.
  induction fuel as [|fuel IH]; intros s H Hlen.
  - destruct s; [reflexivity | cbn in Hlen; lia].
  - destruct s as [|y s]; [reflexivity|].
    cbn [channel_matches_from] in H. cbn [has_candidate]. unfold candidate_at.
    cbn [String.length] in Hlen.
    destruct (String.prefix CHANNEL_MARKER (String y s));
      [|apply IH; [assumption | lia]].
    destruct (0 <? span channel_name_char
                     (drop (String.length CHANNEL_MARKER) (String y s)))%nat;
      [discriminate|].
    apply IH; [assumption | lia].
Qed.

Lemma drop_app_le (n : nat) (a b : string) :
  (n <= String.length a)%nat -> drop n (a ++ b) = drop n a ++ b.
Proof.
  revert a. induction n as [|n IH]; intros [|x a] H; cbn in *; try lia; auto.
  apply IH. lia.
Qed.

Lemma span_app_pos (f : ascii -> bool) (a b : string) :
  (0 < span f a)%nat -> (0 < span f (a ++ b))%nat.
Proof. destruct a as [|x a]; cbn; [lia | destruct (f x); lia]. Qed.

Lemma prefix_length (p s : string) :
  String.prefix p s = true -> (String.length p <= String.length s)%nat.
Proof.
  intros H. rewrite (prefix_split _ _ H), length_app. lia.
Qed.

Lemma candidate_at_app (a b : string) :
  candidate_at a = true -> candidate_at (a ++ b) = true.
Proof.
  unfold candidate_at. intros H. apply andb_prop in H as [Hp Hs].
  rewrite (prefix_app_weaken _ _ _ Hp). cbn [andb].
  rewrite drop_app_le by now apply prefix_length.
  apply Nat.ltb_lt. apply span_app_pos. now apply Nat.ltb_lt.
Qed.

Lemma has_candidate_app (a b : string) :
  has_candidate (a ++ b) = false -> has_candidate a = false.
Proof.
  induction a as [|x a IH]; [reflexivity|].
  change (String x a ++ b) with (String x (a ++ b)).
  cbn [has_candidate]. intros H. apply orb_false_elim in H as [Hc Hs].
  rewrite (IH Hs), orb_false_r.
  destruct (candidate_at (String x a)) eqn:E; [|reflexivity].
  apply (candidate_at_app _ b) in E.
  change (String x a ++ b) with (String x (a ++ b)) in E. congruence.
Qed.

Lemma has_candidate_includes (s : string) :
  includes s CHANNEL_MARKER = false -> has_candidate s = false.
Proof.
  unfold includes. induction s as [|x s IH]; [reflexivity|].
  cbn [find has_candidate]. unfold candidate_at.
  destruct (String.prefix CHANNEL_MARKER (String x s)); [discriminate|].
  destruct (find CHANNEL_MARKER s); [discriminate|]. intros _. now apply IH.
Qed.

Lemma last_some_nil (A : Type) (l : list A) :
  last (map Some l) None = None -> l = [].
Proof.
  induction l as [|x l IH]; [reflexivity|].
  destruct l as [|y l]; [discriminate|].
  intros H. change (last (map Some (y :: l)) None = None) in H.
  apply IH in H. discriminate.
Qed.

Lemma last_some_in (A : Type) (l : list A) (x : A) :
  last (map Some l) None = Some x -> In x l.
Proof.
  induction l as [|y l IH]; [discriminate|].
  destruct l as [|z l].
  - intros [= ->]. now left.
  - intros H. change (last (map Some (z :: l)) None = Some x) in H.
    right. now apply IH.
Qed.

Lemma detected_none (b : string) :
  detected b = None <-> has_candidate b = false.
Proof.
  unfold detected, detectCurrentChannel, channel_matches. cbn [buffer].
  destruct (last (map Some (channel_matches_from (String.length b) b)) None)
    as [ch|] eqn:E.
  - apply last_some_in in E. pose proof E as Hin.
    apply channel_matches_nonempty in E. apply Z.ltb_lt in E. rewrite E.
    cbn [currentChannel]. split; [discriminate|].
    intros H. rewrite (channel_matches_none _ _ H) in Hin. contradiction.
  - cbn [currentChannel]. apply last_some_nil in E.
    split; [|reflexivity]. intros _.
    now apply (channel_matches_some _ _ E).
Qed.

(** Detection on a grown buffer does not depend on what was detected
    before, once that came from the buffer itself. *)
Lemma detect_pure (self : HarmonyStreamParser) (content : string) :
  currentChannel self = detected (buffer self) ->
  detectCurrentChannel
    {| buffer := buffer self ++ content; currentChannel := currentChannel self |}
  = {| buffer := buffer self ++ content;
       currentChannel := detected (buffer self ++ content) |}.
Proof.
  intros Hinv. unfold detected, detectCurrentChannel. cbn [buffer].
  destruct (last (map Some (channel_matches (buffer self ++ content))) None)
    as [ch|] eqn:E.
  - destruct (0 <? len ch) eqn:El; [reflexivity|].
    apply last_some_in, channel_matches_nonempty in E. lia.
  - cbn [currentChannel]. f_equal. rewrite Hinv. apply detected_none.
    apply (has_candidate_app _ content).
    apply last_some_nil in E.
    now apply (channel_matches_some _ _ E).
Qed.

Lemma snapshot_of_parts (b : string) :
  snapshot_of b =
  if negb (has_markers b) then Some (plain_snapshot b)
  else window_snapshot b (detected b).
Proof.
  unfold snapshot_of. rewrite parseCurrentBuffer_parts. cbn [buffer].
  destruct (negb (has_markers b)); [reflexivity|]. cbn [snd].
  pose proof (detect_pure new_parser b eq_refl) as Hn.
  cbn [new_parser buffer currentChannel append] in Hn.
  now rewrite Hn.
Qed.

Lemma addContent_pure (self : HarmonyStreamParser) (content : string) :
  currentChannel self = detected (buffer self) ->
  snd (addContent self content) = snapshot_of (buffer self ++ content) /\
  currentChannel (fst (addContent self content))
  = detected (buffer (fst (addContent self content))).
Proof.
  intros Hinv. rewrite snapshot_of_parts.
  unfold addContent. rewrite parseCurrentBuffer_parts. cbn [buffer].
  destruct (has_markers (buffer self ++ content)) eqn:Em; cbn [negb fst snd].
  - rewrite (detect_pure self content Hinv). cbn [buffer currentChannel].
    split; reflexivity.
  - split; [reflexivity|]. cbn [buffer currentChannel].
    unfold has_markers in Em.
    apply orb_false_elim in Em as [Em _]. apply orb_false_elim in Em as [_ Ec].
    apply has_candidate_includes in Ec.
    rewrite Hinv. transitivity (@None string).
    + apply detected_none. now apply (has_candidate_app _ content).
    + symmetry. now apply detected_none.
Qed.

Lemma addContents_pure (chunks : list string) :
  forall self,
    currentChannel self = detected (buffer self) ->
    currentChannel (fst (addContents self chunks))
    = detected (buffer (fst (addContents self chunks))).
Proof.
  induction chunks as [|c chunks IH]; intros self Hinv; [exact Hinv|].
  cbn [addContents].
  pose proof (addContent_pure self c Hinv) as [_ H1].
  destruct (addContent self c) as [s1 r1]. cbn [fst] in H1.
  specialize (IH s1 H1). now destruct (addContents s1 chunks).
Qed.

Lemma fresh_is_new (self : HarmonyStreamParser) :
  fresh_or_reset self -> self = new_parser.
Proof. intros [H | [used H]]; exact H. Qed.

(** C10: the snapshot of the latest addition depends on the accumulated
    buffer alone: two instances, each new or reset, whose chunks
    concatenate to the same string return the same snapshot (equal in
    every field), or both return none. *)
Theorem snapshot_is_function_of_buffer
  (self1 self2 : HarmonyStreamParser) (chunks1 chunks2 : list string)
  (last1 last2 : string) :
  fresh_or_reset self1 ->
  fresh_or_reset self2 ->
  String.concat EmptyString (chunks1 ++ [last1])
  = String.concat EmptyString (chunks2 ++ [last2]) ->
  snd (addContent (fst (addContents self1 chunks1)) last1)
  = snd (addContent (fst (addContents self2 chunks2)) last2).
Proof.
  intros F1 F2 Hsame.
  apply fresh_is_new in F1, F2. subst self1 self2.
  pose proof (addContent_pure _ last1
                (addContents_pure chunks1 new_parser eq_refl)) as [E1 _].
  pose proof (addContent_pure _ last2
                (addContents_pure chunks2 new_parser eq_refl)) as [E2 _].
  rewrite E1, E2. f_equal.
  rewrite !addContents_buffer. cbn [new_parser buffer append].
  now rewrite <- !concat_snoc.
Qed.

End Stream.

Lemma snapshot_is_function_of_buffer_witness :
  snd (addContent
         (fst (addContents new_parser
                 ["<|start|>assistant<|chan"; "nel|>analysis<|mess"]))
         "age|>Thinking")
  = snd (addContent
           (fst (addContents
                   (reset (fst (addContent new_parser "<|channel|>final")))
                   ["<|start|>assistant<|channel|>analysis"]))
           "<|message|>Thinking").
Proof.
  apply snapshot_is_function_of_buffer.
  - left. reflexivity.
  - right. eexists. reflexivity.
  - reflexivity.
Defined.

(** * Further properties *)

(** ** Strict parser *)
Section StrictParserFacts.
Context {host : JsonHost}.

Ltac split_push H :=
  repeat match type of H with
         | context [if ?b then _ else _] => destruct b eqn:?
         | context [match current ?s with _ => _ end] =>
             destruct (current s) eqn:?
         | context [match JSON_parse ?a with _ => _ end] =>
             destruct (JSON_parse a) eqn:?
         end.

(** X1: a push that throws leaves the parser state as it was, whatever
    the error, and the error code is one of the seven codes of push. *)
Theorem push_throw_keeps_state (state state' : ParseState) (token : string)
  (given : option HarmonyDelimiters) (e : HarmonyError) :
  push state token given = (state', Some e) ->
  state' = state /\ In (code e) push_codes.
Proof.
  intros H. unfold push in H. split_push H;
    inversion H; subst; split; try reflexivity; cbn; tauto.
Qed.

Lemma Forall_snoc (A : Type) (P : A -> Prop) (l : list A) (x : A) :
  Forall P l -> P x -> Forall P (l ++ [x])%list.
Proof. intros Hl Hx. apply Forall_app. split; [assumption | now constructor]. Qed.

Lemma push_keeps_well_formed (state state' : ParseState) (token : string)
  (given : option HarmonyDelimiters) :
  state_well_formed state ->
  push state token given = (state', None) ->
  state_well_formed state'.
Proof.
  intros [Hm Hc] H. unfold push in H. split_push H;
    inversion H; subst; clear H;
    unfold state_well_formed, message_well_formed in *;
    cbn [state_messages current role content] in *;
    repeat match goal with
           | X : negb _ = false |- _ => apply negb_false_iff in X
           | X : current ?s = Some _, Y : context [current ?s] |- _ =>
               rewrite X in Y
           | X : current ?s = None, Y : context [current ?s] |- _ =>
               rewrite X in Y
           | X : _ /\ _ |- _ => destruct X
           | |- _ /\ _ => split
           | |- Forall _ (_ ++ [_])%list => apply Forall_snoc
           | |- Forall _ [] => constructor
           | |- True => exact I
           end; try assumption.
Qed.

Lemma push_all_keeps_well_formed (tokens : list string)
  (given : option HarmonyDelimiters) :
  forall state state',
    state_well_formed state ->
    push_all state tokens given = (state', None) ->
    state_well_formed state'.
Proof.
  induction tokens as [|t tokens IH]; intros state state' Hw H.
  - cbn in H. injection H as <-. exact Hw.
  - cbn [push_all] in H.
    destruct (push state t given) as [s1 [e|]] eqn:E; [discriminate|].
    eapply IH; [|exact H]. eapply push_keeps_well_formed; eassumption.
Qed.

(** X2: every conversation [parseTokens] returns holds only messages
    with a role of the closed set and text chunks on channels of the
    closed set, whatever the tokens and delimiters. *)
Theorem parseTokens_returns_well_formed (tokens : list string)
  (given : option HarmonyDelimiters) (c : HarmonyConversation) :
  parseTokens tokens given = Normal c ->
  Forall message_well_formed (messages c).
Proof.
  unfold parseTokens.
  destruct (push_all createParser tokens given) as [st [e|]] eqn:E;
    [discriminate|].
  intros [= <-].
  assert (state_well_formed st) as [Hm Hc].
  { eapply push_all_keeps_well_formed; [|exact E].
    split; [constructor | exact I]. }
  unfold finish. cbn [snd messages].
  destruct (current st); [now apply Forall_snoc | assumption].
Qed.

End StrictParserFacts.

Lemma push_throw_keeps_state_witness :
  fst (push open_user_state "text:nochannel" None) = open_user_state /\
  In "INVALID_TEXT" push_codes.
Proof.
  exact (push_throw_keeps_state open_user_state
           (fst (push open_user_state "text:nochannel" None)) "text:nochannel" None
           (raise "INVALID_TEXT" "Missing channel in text token"
              [("token", "text:nochannel")]) eq_refl).
Defined.


Lemma parseTokens_returns_well_formed_witness :
  Forall message_well_formed
    [ {| role := "user"; content := [TextChunk "Hi" "message"] |} ].
Proof.
  exact (parseTokens_returns_well_formed
           ["<|start|>user"; "<|message|>"; "text:message:Hi"] None
           {| messages :=
                [ {| role := "user"; content := [TextChunk "Hi" "message"] |} ] |}
           eq_refl).
Defined.

Section StrictParserMore.
Context {host : JsonHost}.

(** X3: inside a message, after a channel declaration and a message
    marker, one token that no branch of push recognises is accepted and
    dropped (the content is unchanged); the tolerance is spent by it:
    a second such token in a row raises UnknownTokenPrefix. *)
Theorem raw_payload_tolerated_once (state : ParseState) (cur : HarmonyMessage)
  (ch token token2 : string) (given : option HarmonyDelimiters) :
  current state = Some cur ->
  expectingPayload state = Some true ->
  lastStreamingChannel state = Some ch ->
  raw_payload (delims_or_default given) token = true ->
  raw_payload (delims_or_default given) token2 = true ->
  push state token given =
  ({| state_messages := state_messages state;
      current := Some cur;
      lastStreamingChannel := Some ch;
      expectingPayload := Some false |}, None) /\
  push (fst (push state token given)) token2 given =
  (fst (push state token given),
   Some (raise "UNKNOWN_TOKEN" ("Unknown token prefix: " ++ token2)
           [("token", token2)])).
Proof.
  intros Hcur Hexp Hch Ht Ht2.
  assert (forall s t,
             raw_payload (delims_or_default given) t = true ->
             current s = Some cur ->
             push s t given =
             if truthy (expectingPayload s) && is_string (lastStreamingChannel s)
             then ({| state_messages := state_messages s;
                      current := current s;
                      lastStreamingChannel := lastStreamingChannel s;
                      expectingPayload := Some false |}, None)
             else (s, Some (raise "UNKNOWN_TOKEN" ("Unknown token prefix: " ++ t)
                              [("token", t)]))) as Hraw.
  { intros s t Hr Hs. unfold raw_payload in Hr.
    repeat (apply andb_prop in Hr as [Hr ?]).
    repeat match goal with
           | X : negb _ = true |- _ => apply negb_true_iff in X
           end.
    unfold push.
    repeat match goal with
           | X : _ = false |- _ => rewrite X
           end.
    now rewrite Hs. }
  assert (push state token given =
          ({| state_messages := state_messages state;
              current := Some cur;
              lastStreamingChannel := Some ch;
              expectingPayload := Some false |}, None)) as E.
  { rewrite (Hraw state token Ht Hcur), Hexp, Hch, Hcur. reflexivity. }
  split; [exact E|]. rewrite E. cbn [fst].
  rewrite (Hraw {| state_messages := state_messages state;
                   current := Some cur;
                   lastStreamingChannel := Some ch;
                   expectingPayload := Some false |} token2 Ht2 eq_refl).
  reflexivity.
Qed.

Lemma push_end_pending (state : ParseState) (given : option HarmonyDelimiters) :
  String.prefix (start (delims_or_default given))
    (end_ (delims_or_default given)) = false ->
  exists state',
    push state (end_ (delims_or_default given)) given = (state', None) /\
    pending state' = pending state.
Proof.
  intros He. unfold push. rewrite !startsWith_0, He.
  destruct (String.prefix CHANNEL_MARKER (end_ (delims_or_default given))).
  - destruct (0 <? len (slice_from (end_ (delims_or_default given))
                          (len CHANNEL_MARKER)));
      eexists; repeat split.
  - destruct (end_ (delims_or_default given)
              =? message (delims_or_default given))%string.
    + eexists; repeat split.
    + rewrite String.eqb_refl. eexists; split; [reflexivity|].
      unfold pending. cbn. now destruct (current state).
Qed.

Lemma push_all_snoc (state : ParseState) (tokens : list string) (t : string)
  (given : option HarmonyDelimiters) :
  push_all state (tokens ++ [t])%list given =
  match push_all state tokens given with
  | (state', None) => push state' t given
  | r => r
  end.
Proof.
  revert state. induction tokens as [|x tokens IH]; intros state.
  - cbn. now destruct (push state t given) as [s [e|]].
  - cbn [List.app push_all].
    destruct (push state x given) as [s1 [e|]]; [reflexivity | apply IH].
Qed.

(** X4: a final end marker is optional: unless the start marker is a
    prefix of the end marker, the tokens followed by one more end marker
    parse to the same conversation, or fail with the same error. *)
Theorem trailing_end_marker_optional (tokens : list string)
  (given : option HarmonyDelimiters) :
  String.prefix (start (delims_or_default given))
    (end_ (delims_or_default given)) = false ->
  parseTokens (tokens ++ [end_ (delims_or_default given)])%list given
  = parseTokens tokens given.
Proof.
  intros He. unfold parseTokens. rewrite push_all_snoc.
  destruct (push_all createParser tokens given) as [st [e|]]; [reflexivity|].
  destruct (push_end_pending st given He) as (st' & E & P).
  rewrite E. unfold finish, pending in *. cbn [snd]. now rewrite P.
Qed.

(** X5: a message built by [Message.fromRoleAndContent] from a role of
    the closed set and any string, whatever characters it holds, is
    rendered to four tokens and parsed back unchanged, under delimiters
    that keep the rendered tokens apart. *)
Theorem string_message_round_trip (role0 text0 : string)
  (given : option HarmonyDelimiters) :
  unambiguous (delims_or_default given) = true ->
  isHarmonyRole role0 = true ->
  renderConversation
    (fromMessages [fromRoleAndContent role0 (ContentString text0)])
    (Some {| delimiters := given |})
  = [ start (delims_or_default given) ++ role0;
      message (delims_or_default given);
      "text:message:" ++ text0;
      end_ (delims_or_default given) ] /\
  parseTokens
    (renderConversation
       (fromMessages [fromRoleAndContent role0 (ContentString text0)])
       (Some {| delimiters := given |})) given
  = Normal (fromMessages [fromRoleAndContent role0 (ContentString text0)]).
Proof.
  intros Hd Hr. split; [reflexivity|].
  unfold parseTokens, renderConversation. cbn [options_delimiters delimiters].
  destruct (push_messages given Hd
              (messages (fromMessages
                           [fromRoleAndContent role0 (ContentString text0)]))
              createParser) as (st & E & P).
  - repeat constructor. exact Hr.
  - repeat constructor.
  - rewrite E, finish_pending, P. reflexivity.
Qed.

(** X6: [loadHarmonyEncoding] throws UNKNOWN_ENCODING for every name but
    ["HARMONY_GPT_OSS"]; for that name it returns an encoding whose two
    functions ignore the role and compose to the identity on every
    conversation of supported roles and channels whose tool arguments
    round-trip through JSON and whose tool namespaces and names hold no
    [":"]. *)
Theorem loadHarmonyEncoding_round_trip :
  (forall name0,
      name0 <> "HARMONY_GPT_OSS" ->
      loadHarmonyEncoding name0 =
      Throw (ThrownHarmonyError
               {| code := "UNKNOWN_ENCODING";
                  error_message := "Unknown encoding: " ++ name0;
                  details := None |})) /\
  exists encoding,
    loadHarmonyEncoding "HARMONY_GPT_OSS" = Normal encoding /\
    forall conversation role1 role2,
      conversation_supported conversation ->
      tools_colon_free conversation ->
      parseMessagesFromCompletionTokens encoding
        (renderConversationForCompletion encoding conversation role1) role2
      = Normal conversation.
Proof.
  split.
  - intros name0 Hn. unfold loadHarmonyEncoding.
    apply String.eqb_neq in Hn. now rewrite Hn.
  - eexists. split; [reflexivity|].
    intros conversation role1 role2 Hs Hc.
    cbn [parseMessagesFromCompletionTokens renderConversationForCompletion].
    unfold parseTokens, renderConversation.
    destruct (push_messages None eq_refl (messages conversation)
                createParser Hs Hc) as (st & E & P).
    cbn [options_delimiters].
    rewrite E, finish_pending, P. now destruct conversation.
Qed.

End StrictParserMore.

Lemma raw_payload_tolerated_once_witness :
  push streaming_state "Let me think" None =
  ({| state_messages := [];
      current := Some {| role := "assistant"; content := [] |};
      lastStreamingChannel := Some "analysis";
      expectingPayload := Some false |}, None) /\
  push (fst (push streaming_state "Let me think" None)) "some more" None =
  (fst (push streaming_state "Let me think" None),
   Some (raise "UNKNOWN_TOKEN" "Unknown token prefix: some more"
           [("token", "some more")])).
Proof.
  exact (raw_payload_tolerated_once streaming_state
           {| role := "assistant"; content := [] |} "analysis"
           "Let me think" "some more" None
           eq_refl eq_refl eq_refl eq_refl eq_refl).
Defined.

Lemma trailing_end_marker_optional_witness :
  parseTokens ["<|start|>user"; "<|message|>"; "text:message:Hi"; "<|end|>"] None
  = parseTokens ["<|start|>user"; "<|message|>"; "text:message:Hi"] None.
Proof.
  exact (trailing_end_marker_optional
           ["<|start|>user"; "<|message|>"; "text:message:Hi"] None eq_refl).
Defined.

Lemma string_message_round_trip_witness :
  parseTokens
    (renderConversation
       (fromMessages
          [fromRoleAndContent "user" (ContentString "a:b <|end|> text:x")])
       (Some {| delimiters := None |})) None
  = Normal
      (fromMessages
         [fromRoleAndContent "user" (ContentString "a:b <|end|> text:x")]).
Proof.
  exact (proj2 (string_message_round_trip "user" "a:b <|end|> text:x" None
                  eq_refl eq_refl)).
Defined.

(** ** Tokenizer, detector and extractors *)
Section TokenizerFacts.
Variable delims : HarmonyDelimiters.
Variable input : string.

Lemma tokenize_loop_step (fuel : nat) (i : Z) (tokens : list string) :
  tokenize_loop (S fuel) delims input i tokens =
  if i <? len input
  then tokenize_loop fuel delims input (fst (tokenize_step delims input i))
         (pushed tokens (snd (tokenize_step delims input i)))
  else Some tokens.
Proof.
  cbn [tokenize_loop]. unfold tokenize_step.
  destruct (i <? len input); [|reflexivity].
  destruct (startsWith input (start delims) i); [reflexivity|].
  destruct (startsWith input (message delims) i); [reflexivity|].
  destruct (startsWith input (end_ delims) i); [reflexivity|].
  cbv zeta. cbn [fst snd].
  now destruct (0 <? len (slice input i (findNextDelimiterIndex input i delims))).
Qed.

Lemma stalled_loop_never_ends (i : Z) :
  i < len input ->
  fst (tokenize_step delims input i) = i ->
  forall fuel tokens, tokenize_loop fuel delims input i tokens = None.
Proof.
  intros Hi Hstep fuel. induction fuel as [|fuel IH]; intros tokens.
  - reflexivity.
  - rewrite tokenize_loop_step, Hstep.
    destruct (Z.ltb_spec i (len input)); [apply IH | lia].
Qed.

Lemma find_bound (p s : string) (k : nat) :
  find p s = Some k -> (k <= String.length s)%nat.
Proof.
  revert k. induction s as [|c s IH]; intros k; cbn [find].
  - destruct (String.prefix p EmptyString); [|discriminate].
    intros [= <-]. cbn. lia.
  - destruct (String.prefix p (String c s)).
    + intros [= <-]. lia.
    + destruct (find p s) as [k'|]; [|discriminate].
      intros [= <-]. specialize (IH k' eq_refl). cbn. lia.
Qed.

Lemma indexOf_range (p : string) (i : Z) :
  0 <= i <= len input ->
  indexOf input p i = -1 \/ i <= indexOf input p i <= len input.
Proof.
  intros Hi. unfold indexOf. rewrite clamp_inside by assumption.
  destruct (find p (drop (Z.to_nat i) input)) as [k|] eqn:E; [|now left].
  right. apply find_bound in E. rewrite length_drop in E.
  unfold len in *. lia.
Qed.

Lemma findNextDelimiterIndex_range (i : Z) :
  0 <= i <= len input ->
  i <= findNextDelimiterIndex input i delims <= len input.
Proof.
  intros Hi. unfold findNextDelimiterIndex.
  destruct (indexOf_range (start delims) i Hi) as [E1|E1];
    destruct (indexOf_range (message delims) i Hi) as [E2|E2];
    destruct (indexOf_range (end_ delims) i Hi) as [E3|E3];
    cbn [filter];
    repeat match goal with
           | |- context [?x >=? 0] => destruct (Z.geb_spec x 0); try lia
           end;
    cbn [fold_left];
    repeat match goal with
           | |- context [?x <? ?y] => destruct (Z.ltb_spec x y)
           end; lia.
Qed.

Lemma take_drop (n : nat) (s : string) : take n s ++ drop n s = s.
Proof.
  revert s. induction n as [|n IH]; intros [|c s]; cbn; try reflexivity.
  now rewrite IH.
Qed.

Lemma slice_inside (i j : Z) :
  0 <= i <= j -> j <= len input ->
  slice input i j
  = take (Z.to_nat j - Z.to_nat i) (drop (Z.to_nat i) input).
Proof.
  intros Hi Hj. unfold slice. rewrite !rel_index_inside by lia.
  f_equal. lia.
Qed.

Lemma slice_then_rest (i j : Z) :
  0 <= i <= j -> j <= len input ->
  slice input i j ++ drop (Z.to_nat j) input = drop (Z.to_nat i) input.
Proof.
  intros Hi Hj. rewrite slice_inside by assumption.
  replace (Z.to_nat j) with (Z.to_nat i + (Z.to_nat j - Z.to_nat i))%nat at 2
    by lia.
  rewrite <- drop_drop. apply take_drop.
Qed.

Lemma slice_marker (p : string) (i : Z) :
  0 <= i <= len input ->
  startsWith input p i = true ->
  i + len p <= len input /\ slice input i (i + len p) = p.
Proof.
  intros Hi Hs. unfold startsWith in Hs. rewrite clamp_inside in Hs by assumption.
  pose proof (prefix_length _ _ Hs) as Hl. rewrite length_drop in Hl.
  pose proof (len_nonneg p).
  assert (i + len p <= len input) as Hb by (unfold len in *; lia).
  split; [exact Hb|].
  rewrite slice_inside by lia.
  rewrite (prefix_split _ _ Hs) at 1.
  replace (Z.to_nat (i + len p) - Z.to_nat i)%nat with (String.length p)
    by (unfold len; lia).
  apply take_app.
Qed.

Lemma scan_role_range (j : Z) :
  0 <= j <= len input -> j <= scan_role input j <= len input.
Proof.
  intros Hj. unfold scan_role.
  pose proof (span_le is_lower (drop (Z.to_nat j) input)) as H.
  rewrite length_drop in H. unfold len in *. lia.
Qed.

(** What one iteration does: it moves to an index between [i] and the
    length, and the token it pushes is the text it moved over. *)
Lemma tokenize_step_sound (i : Z) :
  0 <= i <= len input ->
  i <= fst (tokenize_step delims input i) <= len input /\
  match snd (tokenize_step delims input i) with
  | Some t => t
  | None => EmptyString
  end = slice input i (fst (tokenize_step delims input i)).
Proof.
  intros Hi. unfold tokenize_step.
  destruct (startsWith input (start delims) i) eqn:E1.
  { destruct (slice_marker _ _ Hi E1) as [Hb _].
    pose proof (len_nonneg (start delims)).
    pose proof (scan_role_range (i + len (start delims))).
    cbn [fst snd]. split; [lia | reflexivity]. }
  destruct (startsWith input (message delims) i) eqn:E2.
  { destruct (slice_marker _ _ Hi E2) as [Hb Hsl].
    pose proof (len_nonneg (message delims)).
    cbn [fst snd]. split; [lia | now rewrite Hsl]. }
  destruct (startsWith input (end_ delims) i) eqn:E3.
  { destruct (slice_marker _ _ Hi E3) as [Hb Hsl].
    pose proof (len_nonneg (end_ delims)).
    cbn [fst snd]. split; [lia | now rewrite Hsl]. }
  cbv zeta. cbn [fst snd].
  split; [now apply findNextDelimiterIndex_range|].
  destruct (Z.ltb_spec 0 (len (slice input i
                                 (findNextDelimiterIndex input i delims))))
    as [H|H]; [reflexivity|].
  symmetry. apply len_zero.
  pose proof (len_nonneg (slice input i (findNextDelimiterIndex input i delims))).
  lia.
Qed.

Lemma tokenize_loop_tokens (fuel : nat) :
  forall (i : Z) (tokens result : list string),
    0 <= i <= len input ->
    tokenize_loop fuel delims input i tokens = Some result ->
    exists new,
      result = (tokens ++ new)%list /\
      String.concat EmptyString new = drop (Z.to_nat i) input /\
      Forall (fun t => t <> EmptyString) new.
Proof.
  induction fuel as [|fuel IH]; intros i tokens result Hi H; [discriminate|].
  rewrite tokenize_loop_step in H.
  destruct (Z.ltb_spec i (len input)) as [Hlt|Hge].
  - destruct (tokenize_step_sound i Hi) as [Hr Ht].
    destruct (Z.eq_dec (fst (tokenize_step delims input i)) i) as [Est|Est].
    { rewrite Est in H.
      now rewrite (stalled_loop_never_ends i Hlt Est) in H. }
    destruct (IH _ _ _ (conj (Z.le_trans _ _ _ (proj1 Hi) (proj1 Hr)) (proj2 Hr)) H)
      as (new & -> & Hc & Hn).
    pose proof (slice_then_rest i (fst (tokenize_step delims input i))
                  (conj (proj1 Hi) (proj1 Hr)) (proj2 Hr)) as Hsl.
    rewrite <- Ht, <- Hc in Hsl.
    destruct (snd (tokenize_step delims input i)) as [t|]; cbn [pushed].
    + exists (t :: new). rewrite <- List.app_assoc. split; [reflexivity|].
      split; [now rewrite concat_cons|].
      constructor; [|exact Hn].
      intros ->. cbn [append] in Hsl. rewrite Hc in Hsl.
      apply (f_equal String.length) in Hsl. rewrite !length_drop in Hsl.
      unfold len in *. lia.
    + exists new. split; [reflexivity|]. split; [exact Hsl | exact Hn].
  - injection H as <-. exists []. rewrite List.app_nil_r.
    split; [reflexivity|]. split; [|constructor].
    symmetry. apply drop_all. unfold len in *. lia.
Qed.

End TokenizerFacts.

(** X7: whenever the tokenizer returns, whatever the delimiters, the
    tokens concatenated in order are the input, and no token is empty. *)
Theorem tokenizer_partitions_input (input : string)
  (given : option HarmonyDelimiters) (tokens : list string) :
  tokenizeCompletionString input given = Some tokens ->
  String.concat EmptyString tokens = input /\
  Forall (fun t => t <> EmptyString) tokens.
Proof.
  intros H. unfold tokenizeCompletionString in H.
  apply tokenize_loop_tokens in H; [|pose proof (len_nonneg input); lia].
  destruct H as (new & -> & Hc & Hn). cbn [List.app]. now split.
Qed.

Lemma tokenizer_partitions_input_witness :
  String.concat EmptyString
    ["<|start|>assistant"; "<|channel|>analysis"; "<|message|>";
     "Hm<|channel|>final"; "<|message|>"; "42"; "<|end|>"]
  = "<|start|>assistant<|channel|>analysis<|message|>Hm<|channel|>final<|message|>42<|end|>"
  /\ Forall (fun t => t <> EmptyString)
       ["<|start|>assistant"; "<|channel|>analysis"; "<|message|>";
        "Hm<|channel|>final"; "<|message|>"; "42"; "<|end|>"].
Proof.
  apply (tokenizer_partitions_input
           "<|start|>assistant<|channel|>analysis<|message|>Hm<|channel|>final<|message|>42<|end|>"
           None).
  vm_compute. reflexivity.
Defined.

Lemma find_none_prefix (p s : string) :
  find p s = None -> String.prefix p s = false.
Proof.
  destruct s as [|c s]; cbn [find];
    destruct (String.prefix p _); [discriminate | reflexivity
                                   | discriminate | reflexivity].
Qed.

Lemma absent_marker (input p : string) :
  includes input p = false ->
  startsWith input p 0 = false /\ indexOf input p 0 = -1 /\
  (input =? p)%string = false.
Proof.
  unfold includes. intros H.
  destruct (find p input) eqn:E; [discriminate|].
  rewrite startsWith_0, (find_none_prefix _ _ E).
  split; [reflexivity|]. split.
  - unfold indexOf. rewrite clamp_inside by (pose proof (len_nonneg input); lia).
    cbn [Z.to_nat drop]. now rewrite E.
  - apply String.eqb_neq. intros ->.
    pose proof (prefix_app p EmptyString) as Hp. rewrite app_empty_r in Hp.
    rewrite (find_none_prefix _ _ E) in Hp. discriminate.
Qed.

Lemma slice_whole (s : string) : slice s 0 (len s) = s.
Proof.
  pose proof (slice_app_head s EmptyString) as H.
  now rewrite app_empty_r in H.
Qed.

(** X8: a non-empty input in which none of the three markers occurs is
    tokenized to itself as one payload token; [parseConversationFromString]
    then throws ContentOutsideMessage for it, unless the input begins
    with the channel marker, which is accepted and yields no message. *)
Theorem unframed_input_is_one_token {host : JsonHost} (input : string)
  (given : option HarmonyDelimiters) :
  input <> EmptyString ->
  includes input (start (delims_or_default given)) = false ->
  includes input (message (delims_or_default given)) = false ->
  includes input (end_ (delims_or_default given)) = false ->
  tokenizeCompletionString input given = Some [input] /\
  parseConversationFromString input given =
  Some (if startsWith input CHANNEL_MARKER 0
        then Normal {| messages := [] |}
        else Throw (ThrownHarmonyError
                      (raise "UNEXPECTED_TOKEN"
                         ("Content outside of a message: " ++ input)
                         [("token", input)]))).
Proof.
  intros Hne H1 H2 H3.
  destruct (absent_marker _ _ H1) as (S1 & I1 & _).
  destruct (absent_marker _ _ H2) as (S2 & I2 & Q2).
  destruct (absent_marker _ _ H3) as (S3 & I3 & Q3).
  assert (tokenizeCompletionString input given = Some [input]) as Htok.
  { unfold tokenizeCompletionString.
    assert (0 < len input) as Hpos.
    { destruct input as [|c s]; [contradiction|].
      rewrite len_cons. pose proof (len_nonneg s). lia. }
    assert (exists n, String.length input = S n) as [n Hn]
        by (destruct input; [contradiction | eexists; reflexivity]).
    rewrite Hn, tokenize_loop_step.
    destruct (Z.ltb_spec 0 (len input)); [|lia].
    unfold tokenize_step. rewrite S1, S2, S3. cbv zeta. cbn [fst snd].
    unfold findNextDelimiterIndex. rewrite I1, I2, I3.
    cbn [filter Z.geb Z.compare].
    rewrite slice_whole.
    destruct (Z.ltb_spec 0 (len input)); [|lia]. cbn [pushed List.app].
    cbn [tokenize_loop]. now rewrite Z.ltb_irrefl. }
  split; [exact Htok|].
  unfold parseConversationFromString. rewrite Htok. f_equal.
  unfold parseTokens. cbn [push_all]. unfold push.
  rewrite S1. destruct (startsWith input CHANNEL_MARKER 0).
  - now destruct (0 <? len (slice_from input (len CHANNEL_MARKER))).
  - now rewrite Q2, Q3.
Qed.

Lemma unframed_input_is_one_token_witness :
  tokenizeCompletionString "Plain text without delimiters" None
  = Some ["Plain text without delimiters"] /\
  parseConversationFromString "Plain text without delimiters" None =
  Some (Throw (ThrownHarmonyError
                 (raise "UNEXPECTED_TOKEN"
                    "Content outside of a message: Plain text without delimiters"
                    [("token", "Plain text without delimiters")]))).
Proof.
  apply (unframed_input_is_one_token "Plain text without delimiters" None);
    [discriminate | reflexivity | reflexivity | reflexivity].
Defined.

(** X9: as a buffer grows the detector never turns back: a string
    detected as Harmony format stays detected with any text appended,
    for every delimiter set. *)
Theorem isHarmonyFormat_stable_under_append (s t : string)
  (given : option HarmonyDelimiters) :
  isHarmonyFormat (JsString s) given = true ->
  isHarmonyFormat (JsString (s ++ t)) given = true.
Proof.
  assert (forall p, includes s p = true -> includes (s ++ t) p = true) as Hinc.
  { intros p Hp. apply includes_contains in Hp as (a & b & ->).
    apply includes_contains. exists a, (b ++ t). now rewrite !app_assoc. }
  cbn [isHarmonyFormat].
  destruct (Z.eqb_spec (len s) 0) as [E|E]; [discriminate|].
  destruct (Z.eqb_spec (len (s ++ t)) 0) as [E'|E'].
  { rewrite len_app in E'. pose proof (len_nonneg s). pose proof (len_nonneg t).
    lia. }
  intros H.
  apply andb_prop in H as [H H3]. apply andb_prop in H as [H1 H2].
  rewrite (Hinc _ H2), orb_true_r. cbn [andb].
  apply orb_prop in H3 as [H3|H3]; rewrite (Hinc _ H3);
    rewrite ?orb_true_r; reflexivity.
Qed.

Lemma isHarmonyFormat_stable_under_append_witness :
  isHarmonyFormat (JsString ("<|channel|>final<|message|>ans" ++ "wer<|end|>"))
    None = true.
Proof.
  apply isHarmonyFormat_stable_under_append. reflexivity.
Defined.

Lemma trimEnd_edges (s : string) :
  match first_char s with Some c => is_space c = false | None => True end ->
  edges_clean (trimEnd s).
Proof.
  unfold edges_clean. induction s as [|c s IH]; intros Hf; [now split|].
  cbn [first_char] in Hf. cbn [trimEnd].
  destruct (trimEnd s) as [|d r] eqn:E.
  - rewrite Hf. cbn. now split.
  - split; [exact Hf|].
    change (last_char (String c (String d r))) with (last_char (String d r)).
    destruct s as [|x s']; [discriminate|].
    assert (match last_char (trimEnd (String x s')) with
            | Some c0 => is_space c0 = false
            | None => True
            end) as Hl.
    { clear IH Hf. revert x d r E.
      induction s' as [|y s'' IH2]; intros x d r E.
      - cbn in *. destruct (is_space x) eqn:Ex; [discriminate|].
        cbn. exact Ex.
      - cbn [trimEnd] in *.
        destruct (match trimEnd s'' with
                  | EmptyString =>
                      if is_space y then EmptyString else String y EmptyString
                  | String a s0 => String y (String a s0)
                  end) as [|e r'] eqn:E2.
        + destruct (is_space x) eqn:Ex; [discriminate|]. cbn. exact Ex.
        + change (last_char (String x (String e r')))
            with (last_char (String e r')).
          specialize (IH2 y e r'). cbn [trimEnd] in IH2. rewrite E2 in IH2.
          now apply IH2. }
    now rewrite E in Hl.
Qed.

Lemma trimStart_first (s : string) :
  match first_char (trimStart s) with
  | Some c => is_space c = false
  | None => True
  end.
Proof.
  induction s as [|c s IH]; [exact I|].
  cbn [trimStart]. destruct (is_space c) eqn:E; [exact IH | exact E].
Qed.

Lemma trim_edges (s : string) : edges_clean (trim s).
Proof. unfold trim. apply trimEnd_edges, trimStart_first. Qed.

Lemma safeExtractChannel_edges (input channel : string) :
  edges_clean (safeExtractChannel input channel).
Proof.
  unfold safeExtractChannel.
  destruct (lastIndexOf input ("<|channel|>" ++ channel) <? 0);
    [now split|].
  destruct (indexOf input "<|message|>" _ <? 0); [now split|].
  apply trim_edges.
Qed.

(** X10: the texts the three extractors return for a Harmony-formatted
    input, and the reasoning and commentary texts for any input, neither
    begin nor end with white space. *)
Theorem extracted_text_has_clean_edges (input : string) :
  edges_clean (extractReasoningContent input) /\
  edges_clean (extractCommentaryContent input) /\
  (isHarmonyFormat (JsString input) None = true ->
   edges_clean (extractFinalContent input)).
Proof.
  unfold extractReasoningContent, extractCommentaryContent, extractFinalContent.
  destruct (isHarmonyFormat (JsString input) None); cbn [negb].
  - repeat split; try apply safeExtractChannel_edges.
    + destruct (0 <? len (safeExtractChannel input "final"));
        [apply safeExtractChannel_edges|].
      destruct (0 <? len (safeExtractChannel input "commentary"));
        [apply safeExtractChannel_edges | exact I].
    + destruct (0 <? len (safeExtractChannel input "final"));
        [apply safeExtractChannel_edges|].
      destruct (0 <? len (safeExtractChannel input "commentary"));
        [apply safeExtractChannel_edges | exact I].
  - repeat split; discriminate.
Qed.

(** X11: [AllRoles] lists exactly the roles the parser accepts. *)
Theorem AllRoles_are_the_accepted_roles (value : string) :
  isHarmonyRole value = true <-> In value AllRoles.
Proof.
  unfold isHarmonyRole, AllRoles. cbn [In].
  rewrite !orb_true_iff, !String.eqb_eq.
  split; intros H; intuition (subst; auto).
Qed.

Section NextDelimiter.
Variable delims : HarmonyDelimiters.
Variable input : string.

Lemma find_first (p s : string) (k : nat) :
  find p s = Some k ->
  String.prefix p (drop k s) = true /\
  forall j, (j < k)%nat -> String.prefix p (drop j s) = false.
Proof.
  revert k. induction s as [|c s IH]; intros k; cbn [find].
  - destruct (String.prefix p EmptyString) eqn:E; [|discriminate].
    intros [= <-]. split; [exact E | intros j Hj; lia].
  - destruct (String.prefix p (String c s)) eqn:E.
    + intros [= <-]. split; [exact E | intros j Hj; lia].
    + destruct (find p s) as [k'|]; [|discriminate].
      intros [= <-]. destruct (IH k' eq_refl) as [Hk Hj].
      split; [exact Hk|]. intros [|j] Hlt; [exact E|].
      apply Hj. lia.
Qed.

Lemma find_none_everywhere (p s : string) :
  find p s = None -> forall j, String.prefix p (drop j s) = false.
Proof.
  induction s as [|c s IH]; cbn [find].
  - destruct (String.prefix p EmptyString) eqn:E; [discriminate|].
    intros _ [|j]; exact E.
  - destruct (String.prefix p (String c s)) eqn:E; [discriminate|].
    destruct (find p s); [discriminate|].
    intros _ [|j]; [exact E | now apply IH].
Qed.

Lemma indexOf_first (p : string) (from : Z) :
  0 <= from <= len input ->
  (indexOf input p from = -1 /\
   forall k, from <= k <= len input -> startsWith input p k = false) \/
  (from <= indexOf input p from <= len input /\
   startsWith input p (indexOf input p from) = true /\
   forall k, from <= k < indexOf input p from -> startsWith input p k = false).
Proof.
  intros Hf. unfold indexOf, startsWith. rewrite clamp_inside by assumption.
  destruct (find p (drop (Z.to_nat from) input)) as [n|] eqn:E.
  - right. pose proof (find_bound _ _ _ E) as Hb. rewrite length_drop in Hb.
    destruct (find_first _ _ _ E) as [Hk Hj].
    assert (from <= Z.of_nat (Z.to_nat from + n) <= len input) as Hr
        by (unfold len in *; lia).
    split; [exact Hr|]. split.
    + rewrite clamp_inside by lia. rewrite Nat2Z.id, <- drop_drop. exact Hk.
    + intros k Hkr. rewrite clamp_inside by lia.
      replace (Z.to_nat k) with (Z.to_nat from + (Z.to_nat k - Z.to_nat from))%nat
        by lia.
      rewrite <- drop_drop. apply Hj. lia.
  - left. split; [reflexivity|]. intros k Hk. rewrite clamp_inside by lia.
    replace (Z.to_nat k) with (Z.to_nat from + (Z.to_nat k - Z.to_nat from))%nat
      by lia.
    rewrite <- drop_drop. now apply find_none_everywhere.
Qed.

Lemma before_index (p : string) (from k : Z) :
  0 <= from <= len input ->
  from <= k <= len input ->
  indexOf input p from = -1 \/ k < indexOf input p from ->
  startsWith input p k = false.
Proof.
  intros Hf Hk H.
  destruct (indexOf_first p from Hf) as [[E N]|(R & S & N)]; apply N; lia.
Qed.

Lemma at_index (p : string) (from : Z) :
  0 <= from <= len input ->
  0 <= indexOf input p from ->
  from <= indexOf input p from <= len input /\
  startsWith input p (indexOf input p from) = true.
Proof.
  intros Hf H.
  destruct (indexOf_first p from Hf) as [[E N]|(R & S & N)]; [lia | now split].
Qed.

Lemma next_choice (a b c l : Z) :
  -1 <= a -> -1 <= b -> -1 <= c ->
  (a = -1 /\ b = -1 /\ c = -1 /\
   match filter (fun x => x >=? 0) [a; b; c] with
   | [] => l
   | min0 :: others =>
       fold_left (fun min candidate => if candidate <? min then candidate else min)
         others min0
   end = l) \/
  (exists r,
      match filter (fun x => x >=? 0) [a; b; c] with
      | [] => l
      | min0 :: others =>
          fold_left (fun min candidate => if candidate <? min then candidate else min)
            others min0
      end = r /\
      (r = a \/ r = b \/ r = c) /\ 0 <= r /\
      (a = -1 \/ r <= a) /\ (b = -1 \/ r <= b) /\ (c = -1 \/ r <= c)).
Proof.
  intros Ha Hb Hc. cbn [filter].
  destruct (Z.geb_spec a 0), (Z.geb_spec b 0), (Z.geb_spec c 0);
    cbn [fold_left];
    repeat match goal with
           | |- context [?x <? ?y] => destruct (Z.ltb_spec x y)
           | X : context [?x <? ?y] |- _ => destruct (Z.ltb_spec x y)
           end;
    try (left; split; [lia|]; split; [lia|]; split; [lia|]; reflexivity);
    right; eexists; (split; [reflexivity|]);
    (split; [lia|]); (split; [lia|]); (split; [lia|]); (split; lia).
Qed.

Lemma indexOf_lower (p : string) (from : Z) :
  0 <= from <= len input -> -1 <= indexOf input p from.
Proof.
  intros Hf. destruct (indexOf_first p from Hf) as [[E _]|(R & _)]; lia.
Qed.

Lemma nearest_marker (from : Z) :
  0 <= from <= len input ->
  from <= findNextDelimiterIndex input from delims <= len input /\
  (forall k, from <= k < findNextDelimiterIndex input from delims ->
             marker_here delims input k = false) /\
  (marker_here delims input (findNextDelimiterIndex input from delims) = true \/
   findNextDelimiterIndex input from delims = len input /\
   forall k, from <= k <= len input -> marker_here delims input k = false).
Proof.
  intros Hf. unfold findNextDelimiterIndex, marker_here.
  destruct (next_choice (indexOf input (start delims) from)
              (indexOf input (message delims) from)
              (indexOf input (end_ delims) from) (len input)
              (indexOf_lower _ _ Hf) (indexOf_lower _ _ Hf) (indexOf_lower _ _ Hf))
    as [(E1 & E2 & E3 & ->)|(r & -> & Hr & Hpos & L1 & L2 & L3)].
  - split; [lia|]. split.
    + intros k Hk. rewrite !(before_index _ from k) by (auto; lia). reflexivity.
    + right. split; [reflexivity|]. intros k Hk.
      rewrite !(before_index _ from k) by (auto; lia). reflexivity.
  - assert (from <= r <= len input /\
            (startsWith input (start delims) r
             || startsWith input (message delims) r
             || startsWith input (end_ delims) r) = true) as [Hrange Hat].
    { destruct Hr as [-> | [-> | ->]];
        match goal with
        | |- context [Z.le from (indexOf input ?p from)] =>
            destruct (at_index p from Hf Hpos) as [R S]
        end; (split; [exact R|]); rewrite S, ?orb_true_r; reflexivity. }
    split; [exact Hrange|]. split; [|now left].
    intros k Hk.
    rewrite !(before_index _ from k) by (try lia; intuition lia). reflexivity.
Qed.

(** X12: [findNextDelimiterIndex] returns the nearest index at or after
    [from] at which one of the three markers stands, and the length of
    the input when none stands at or after [from]. *)
Theorem findNextDelimiterIndex_is_nearest (from : Z) :
  0 <= from <= len input ->
  from <= findNextDelimiterIndex input from delims <= len input /\
  (forall k, from <= k < findNextDelimiterIndex input from delims ->
             marker_here delims input k = false) /\
  (marker_here delims input (findNextDelimiterIndex input from delims) = true \/
   findNextDelimiterIndex input from delims = len input /\
   forall k, from <= k <= len input -> marker_here delims input k = false).
Proof.
  intros Hf. unfold findNextDelimiterIndex, marker_here.
  destruct (next_choice (indexOf input (start delims) from)
              (indexOf input (message delims) from)
              (indexOf input (end_ delims) from) (len input)
              (indexOf_lower _ _ Hf) (indexOf_lower _ _ Hf) (indexOf_lower _ _ Hf))
    as [(E1 & E2 & E3 & ->)|(r & -> & Hr & Hpos & L1 & L2 & L3)].
  - split; [lia|]. split.
    + intros k Hk. rewrite !(before_index _ from k) by (auto; lia). reflexivity.
    + right. split; [reflexivity|]. intros k Hk.
      rewrite !(before_index _ from k) by (auto; lia). reflexivity.
  - assert (from <= r <= len input /\
            (startsWith input (start delims) r
             || startsWith input (message delims) r
             || startsWith input (end_ delims) r) = true) as [Hrange Hat].
    { destruct Hr as [-> | [-> | ->]];
        match goal with
        | |- context [Z.le from (indexOf input ?p from)] =>
            destruct (at_index p from Hf Hpos) as [R S]
        end; (split; [exact R|]); rewrite S, ?orb_true_r; reflexivity. }
    split; [exact Hrange|]. split; [|now left].
    intros k Hk.
    rewrite !(before_index _ from k) by (try lia; intuition lia). reflexivity.
Qed.

End NextDelimiter.

Lemma findNextDelimiterIndex_is_nearest_witness :
  findNextDelimiterIndex "ab<|end|>cd<|start|>" 1 DEFAULT_DELIMS = 2 /\
  marker_here DEFAULT_DELIMS "ab<|end|>cd<|start|>" 1 = false /\
  marker_here DEFAULT_DELIMS "ab<|end|>cd<|start|>" 2 = true.
Proof.
  destruct (findNextDelimiterIndex_is_nearest DEFAULT_DELIMS
              "ab<|end|>cd<|start|>" 1) as (_ & Hn & _).
  - vm_compute. split; discriminate.
  - split; [reflexivity|]. split; [|reflexivity].
    apply Hn. vm_compute. split; [discriminate | reflexivity].
Defined.

(** ** Streaming extractor *)
Section StreamFacts.
Context {regexp : RegExpHost}.

Lemma run_snapshot (chunks : list string) (content : string) :
  snd (addContent (fst (addContents new_parser chunks)) content)
  = snapshot_of (String.concat EmptyString (chunks ++ [content])).
Proof.
  pose proof (addContent_pure _ content
                (addContents_pure chunks new_parser eq_refl)) as [E _].
  rewrite E, addContents_buffer, concat_snoc. reflexivity.
Qed.

(** X13: text without any of the three markers, streamed in any
    chunking, always yields a snapshot: not complete, no channel, empty
    analysis and commentary, and the whole text so far as the final
    text. *)
Theorem unframed_stream_is_final_text (chunks : list string) (content : string) :
  has_markers (String.concat EmptyString (chunks ++ [content])) = false ->
  snd (addContent (fst (addContents new_parser chunks)) content)
  = Some {| isComplete := false;
            currentAnalysis := EmptyString;
            currentFinal := String.concat EmptyString (chunks ++ [content]);
            currentCommentary := EmptyString;
            lastChannelDetected := None;
            bufferContent := String.concat EmptyString (chunks ++ [content]) |}.
Proof.
  intros H. rewrite run_snapshot, snapshot_of_parts, H. reflexivity.
Qed.

Lemma concat_app (xs ys : list string) :
  String.concat EmptyString (xs ++ ys)
  = String.concat EmptyString xs ++ String.concat EmptyString ys.
Proof.
  induction xs as [|x xs IH]; [reflexivity|].
  change ((x :: xs) ++ ys)%list with (x :: (xs ++ ys))%list.
  now rewrite !concat_cons, IH, app_assoc.
Qed.

Lemma snapshot_channel (b : string) (r : StreamParseResult) :
  snapshot_of b = Some r -> lastChannelDetected r = detected b.
Proof.
  rewrite snapshot_of_parts.
  destruct (has_markers b) eqn:Em; cbn [negb].
  - intros H. now apply window_snapshot_fields in H.
  - intros [= <-]. cbn [plain_snapshot lastChannelDetected].
    symmetry. apply detected_none. apply has_candidate_includes.
    unfold has_markers in Em.
    apply orb_false_elim in Em as [Em _]. now apply orb_false_elim in Em as [_ Ec].
Qed.

(** X14: once a snapshot reports a detected channel, every snapshot
    returned after further additions to the same instance reports one
    too. *)
Theorem detected_channel_persists (chunks more : list string)
  (content later : string) (r1 r2 : StreamParseResult) :
  snd (addContent (fst (addContents new_parser chunks)) content) = Some r1 ->
  snd (addContent
         (fst (addContents new_parser (chunks ++ content :: more))) later)
  = Some r2 ->
  lastChannelDetected r1 <> None ->
  lastChannelDetected r2 <> None.
Proof.
  rewrite !run_snapshot. intros H1 H2.
  rewrite (snapshot_channel _ _ H1), (snapshot_channel _ _ H2).
  intros Hd Hn. apply Hd. apply detected_none. apply detected_none in Hn.
  replace (String.concat EmptyString ((chunks ++ content :: more) ++ [later]))
    with (String.concat EmptyString (chunks ++ [content])
          ++ String.concat EmptyString (more ++ [later])) in Hn.
  - now apply has_candidate_app in Hn.
  - rewrite <- concat_app. f_equal.
    clear. induction chunks as [|x xs IH]; cbn [List.app];
      [reflexivity | now rewrite IH].
Qed.

Lemma contains_after (a t p : string) : contains t p -> contains (a ++ t) p.
Proof.
  intros (x & y & ->). exists (a ++ x), y. now rewrite app_assoc.
Qed.

Lemma take_span_all (f : ascii -> bool) (s : string) :
  all_chars f (take (span f s) s) = true.
Proof.
  induction s as [|c s IH]; [reflexivity|].
  cbn [span]. destruct (f c) eqn:E; [|reflexivity].
  cbn [take all_chars]. now rewrite E, IH.
Qed.

Lemma channel_matches_declared (fuel : nat) :
  forall s x,
    In x (channel_matches_from fuel s) ->
    all_chars channel_name_char x = true /\ contains s (CHANNEL_MARKER ++ x).
Proof.
  induction fuel as [|fuel IH]; intros s x H; [contradiction|].
  destruct s as [|y s]; [contradiction|]. cbn [channel_matches_from] in H.
  assert (forall t, contains s t -> contains (String y s) t) as Hcons.
  { intros t Ht. now apply (contains_after (String y EmptyString)) in Ht. }
  destruct (String.prefix CHANNEL_MARKER (String y s)) eqn:Ep;
    [|apply IH in H as [Ha Hc]; split; [exact Ha | now apply Hcons]].
  destruct (0 <? span channel_name_char
                   (drop (String.length CHANNEL_MARKER) (String y s)))%nat;
    [|apply IH in H as [Ha Hc]; split; [exact Ha | now apply Hcons]].
  set (rest := drop (String.length CHANNEL_MARKER) (String y s)) in *.
  assert (String y s
          = (CHANNEL_MARKER ++ take (span channel_name_char rest) rest)
            ++ drop (span channel_name_char rest) rest) as Hs.
  { rewrite app_assoc, take_drop. now apply prefix_split. }
  destruct H as [<-|H].
  - split; [apply take_span_all|].
    exists EmptyString, (drop (span channel_name_char rest) rest).
    exact Hs.
  - apply IH in H as [Ha Hc]. split; [exact Ha|].
    rewrite Hs. now apply contains_after.
Qed.

(** X15: the channel a snapshot reports is a name declared in the
    buffer: it is not empty, holds no ["<"] and no white space, and
    follows a channel marker somewhere in the text added so far. *)
Theorem reported_channel_is_declared (chunks : list string) (content : string)
  (r : StreamParseResult) (ch : string) :
  snd (addContent (fst (addContents new_parser chunks)) content) = Some r ->
  lastChannelDetected r = Some ch ->
  ch <> EmptyString /\
  all_chars channel_name_char ch = true /\
  contains (String.concat EmptyString (chunks ++ [content]))
    (CHANNEL_MARKER ++ ch).
Proof.
  rewrite run_snapshot. intros H Hch.
  rewrite (snapshot_channel _ _ H) in Hch.
  unfold detected, detectCurrentChannel in Hch. cbn [buffer] in Hch.
  destruct (last (map Some (channel_matches _)) None) as [x|] eqn:E;
    [|discriminate].
  apply last_some_in in E.
  pose proof (channel_matches_nonempty _ _ _ E) as Hlen.
  apply channel_matches_declared in E as [Ha Hc].
  destruct (0 <? len x); cbn [currentChannel] in Hch; [|discriminate].
  injection Hch as <-. split; [|now split].
  intros ->. cbn in Hlen. lia.
Qed.

End StreamFacts.

Lemma unframed_stream_is_final_text_witness :
  snd (addContent (fst (addContents new_parser ["Hel"; "lo <wor"])) "ld>")
  = Some {| isComplete := false;
            currentAnalysis := EmptyString;
            currentFinal := "Hello <world>";
            currentCommentary := EmptyString;
            lastChannelDetected := None;
            bufferContent := "Hello <world>" |}.
Proof.
  apply (unframed_stream_is_final_text ["Hel"; "lo <wor"] "ld>").
  reflexivity.
Defined.

Lemma detected_channel_persists_witness :
  snd (addContent
         (fst (addContents new_parser
                 (["<|channel|>ana"] ++ "lysis" :: ["<|message|>Thinking"])))
         "<|channel|>")
  = Some {| isComplete := false;
            currentAnalysis := "Thinking";
            currentFinal := EmptyString;
            currentCommentary := EmptyString;
            lastChannelDetected := Some "analysis";
            bufferContent :=
              "<|channel|>analysis<|message|>Thinking<|channel|>" |} /\
  lastChannelDetected
    {| isComplete := false;
       currentAnalysis := "Thinking";
       currentFinal := EmptyString;
       currentCommentary := EmptyString;
       lastChannelDetected := Some "analysis";
       bufferContent := "<|channel|>analysis<|message|>Thinking<|channel|>" |}
  <> None.
Proof.
  split; [vm_compute; reflexivity|].
  apply (detected_channel_persists ["<|channel|>ana"] ["<|message|>Thinking"]
           "lysis" "<|channel|>"
           {| isComplete := false;
              currentAnalysis := EmptyString;
              currentFinal := EmptyString;
              currentCommentary := EmptyString;
              lastChannelDetected := Some "analysis";
              bufferContent := "<|channel|>analysis" |}).
  - vm_compute. reflexivity.
  - vm_compute. reflexivity.
  - discriminate.
Defined.

Lemma reported_channel_is_declared_witness :
  "step1" <> EmptyString /\
  all_chars channel_name_char "step1" = true /\
  contains
    (String.concat EmptyString
       (["<|start|>assistant<|chan"; "nel|>st"] ++ ["ep1<|message|>Test"]))
    (CHANNEL_MARKER ++ "step1").
Proof.
  apply (reported_channel_is_declared
           ["<|start|>assistant<|chan"; "nel|>st"] "ep1<|message|>Test"
           {| isComplete := false;
              currentAnalysis := EmptyString;
              currentFinal := EmptyString;
              currentCommentary := EmptyString;
              lastChannelDetected := Some "step1";
              bufferContent := "<|start|>assistant<|channel|>step1<|message|>Test" |}).
  - vm_compute. reflexivity.
  - reflexivity.
Defined.

(** ** Rendering to a string and parsing it back *)
Section StringRoundTrip.

Lemma prefix_no_straddle (c : ascii) (r : string) :
  first_char r = Some c ->
  forall q u,
    all_chars (fun x => negb (Ascii.eqb x c)) q = true ->
    String.prefix q (u ++ r) = true ->
    String.prefix q u = true.
Proof.
  intros Hr q u. revert q. induction u as [|z u IH]; intros q Hq H.
  - destruct q as [|y q]; [reflexivity|].
    destruct r as [|c' r]; [discriminate|]. injection Hr as ->.
    cbn [append] in H. rewrite prefix_cons in H.
    cbn [all_chars] in Hq. apply andb_prop in Hq as [Hy _].
    apply negb_true_iff in Hy. rewrite Hy in H. discriminate.
  - destruct q as [|y q]; [reflexivity|].
    cbn [append] in H. rewrite prefix_cons in *.
    cbn [all_chars] in Hq. apply andb_prop in Hq as [_ Hq].
    apply andb_prop in H as [-> H]. cbn [andb]. now apply IH.
Qed.

(** A marker that holds its first character once does not stand at an
    index inside [p] when it does not occur in [p] and what follows
    [p] begins with that character. *)
Lemma no_match_inside (c : ascii) (q p r : string) (k : nat) :
  all_chars (fun x => negb (Ascii.eqb x c)) q = true ->
  first_char r = Some c ->
  includes p (String c q) = false ->
  (k < String.length p)%nat ->
  String.prefix (String c q) (drop k (p ++ r)) = false.
Proof.
  intros Hq Hr Hp Hk.
  rewrite drop_app_le by lia.
  unfold includes in Hp.
  destruct (find (String c q) p) eqn:E; [discriminate|].
  pose proof (find_none_everywhere _ _ E k) as Hn.
  destruct (drop k p) as [|z u] eqn:Ed.
  { apply (f_equal String.length) in Ed. rewrite length_drop in Ed.
    cbn in Ed. lia. }
  cbn [append]. rewrite prefix_cons in *.
  destruct (Ascii.eqb c z); [|reflexivity]. cbn [andb] in *.
  destruct (String.prefix q (u ++ r)) eqn:Eq; [|reflexivity].
  now rewrite (prefix_no_straddle c r Hr q u Hq Eq) in Hn.
Qed.

Lemma drop_more (input : string) (i : Z) (n : nat) (x : string) :
  0 <= i ->
  drop (Z.to_nat i) input = x ->
  drop (Z.to_nat (i + Z.of_nat n)) input = drop n x.
Proof.
  intros Hi <-. rewrite drop_drop. f_equal. lia.
Qed.

Lemma rest_length (input : string) (i : Z) (x : string) :
  0 <= i <= len input ->
  drop (Z.to_nat i) input = x ->
  len input = i + len x.
Proof.
  intros Hi <-. unfold len in *. rewrite length_drop. lia.
Qed.

Lemma step_at_marker (input : string) (i : Z) (rest : string) :
  0 <= i <= len input ->
  (drop (Z.to_nat i) input = "<|message|>" ++ rest ->
   tokenize_step DEFAULT_DELIMS input i
   = (i + len "<|message|>", Some "<|message|>")) /\
  (drop (Z.to_nat i) input = "<|end|>" ++ rest ->
   tokenize_step DEFAULT_DELIMS input i = (i + len "<|end|>", Some "<|end|>")).
Proof.
  intros Hi. unfold tokenize_step, startsWith.
  rewrite !clamp_inside by assumption.
  split; intros ->.
  - replace (String.prefix (start DEFAULT_DELIMS) ("<|message|>" ++ rest))
      with false by reflexivity.
    change (message DEFAULT_DELIMS) with "<|message|>".
    now rewrite prefix_app.
  - replace (String.prefix (start DEFAULT_DELIMS) ("<|end|>" ++ rest))
      with false by reflexivity.
    replace (String.prefix (message DEFAULT_DELIMS) ("<|end|>" ++ rest))
      with false by reflexivity.
    change (end_ DEFAULT_DELIMS) with "<|end|>".
    now rewrite prefix_app.
Qed.

Lemma role_is_lower (r : string) :
  isHarmonyRole r = true -> all_chars is_lower r = true.
Proof.
  unfold isHarmonyRole. intros H.
  repeat (apply orb_prop in H as [H|H]);
    apply String.eqb_eq in H; subst r; reflexivity.
Qed.

Lemma span_exact (f : ascii -> bool) (a r : string) :
  all_chars f a = true ->
  match first_char r with Some c => f c = false | None => True end ->
  span f (a ++ r) = String.length a.
Proof.
  intros Ha Hr. induction a as [|x a IH].
  - destruct r as [|c r]; [reflexivity|]. cbn in *. now rewrite Hr.
  - cbn [all_chars] in Ha. apply andb_prop in Ha as [Hx Ha].
    cbn [append span String.length]. rewrite Hx. f_equal. now apply IH.
Qed.

Lemma step_at_start (input : string) (i : Z) (r rest : string) :
  0 <= i <= len input ->
  isHarmonyRole r = true ->
  first_char rest = Some "<"%char ->
  drop (Z.to_nat i) input = ("<|start|>" ++ r) ++ rest ->
  tokenize_step DEFAULT_DELIMS input i
  = (i + len ("<|start|>" ++ r), Some ("<|start|>" ++ r)).
Proof.
  intros Hi Hr Hrest Hd.
  pose proof (rest_length _ _ _ Hi Hd) as Hlen.
  rewrite !len_app in Hlen.
  pose proof (len_nonneg r). pose proof (len_nonneg rest).
  change (len "<|start|>") with 9 in Hlen.
  unfold tokenize_step, startsWith. rewrite clamp_inside by assumption.
  change (start DEFAULT_DELIMS) with "<|start|>".
  rewrite Hd, app_assoc, prefix_app. cbv zeta.
  assert (scan_role input (i + len "<|start|>") = i + 9 + len r) as Hj.
  { unfold scan_role. change (len "<|start|>") with (Z.of_nat 9).
    rewrite (drop_more _ _ 9 _ (proj1 Hi) Hd).
    rewrite app_assoc, (drop_app "<|start|>").
    rewrite span_exact; [unfold len; lia | now apply role_is_lower |].
    now rewrite Hrest. }
  rewrite Hj, len_app. change (len "<|start|>") with 9.
  rewrite Z.add_assoc. f_equal. f_equal.
  rewrite slice_inside by lia. rewrite Hd.
  replace (Z.to_nat (i + 9 + len r) - Z.to_nat i)%nat
    with (String.length ("<|start|>" ++ r))
    by (rewrite length_app; unfold len; cbn [String.length]; lia).
  apply take_app.
Qed.

Lemma marker_at_offset (input : string) (i : Z) (n : nat) (x m : string) :
  0 <= i <= len input ->
  drop (Z.to_nat i) input = x ->
  (n <= String.length x)%nat ->
  startsWith input m (i + Z.of_nat n) = String.prefix m (drop n x).
Proof.
  intros Hi Hd Hn. unfold startsWith.
  pose proof (rest_length _ _ _ Hi Hd) as Hl.
  rewrite clamp_inside by (unfold len in *; lia).
  now rewrite (drop_more _ _ n _ (proj1 Hi) Hd).
Qed.

Lemma step_at_payload (input : string) (i : Z) (p rest : string) :
  0 <= i <= len input ->
  p <> EmptyString ->
  marker_free p = true ->
  String.prefix "<|message|>" rest = true \/ String.prefix "<|end|>" rest = true ->
  drop (Z.to_nat i) input = p ++ rest ->
  tokenize_step DEFAULT_DELIMS input i = (i + len p, Some p).
Proof.
  intros Hi Hne Hfree Hrest Hd.
  pose proof (rest_length _ _ _ Hi Hd) as Hlen. rewrite len_app in Hlen.
  pose proof (len_nonneg p). pose proof (len_nonneg rest).
  assert (0 < len p) as Hpos.
  { destruct p; [contradiction|]. rewrite len_cons.
    pose proof (len_nonneg p). lia. }
  assert (first_char rest = Some "<"%char) as Hfirst.
  { destruct Hrest as [Hp|Hp]; apply prefix_split in Hp; rewrite Hp;
      reflexivity. }
  unfold marker_free in Hfree.
  apply andb_prop in Hfree as [Hfree F3]. apply andb_prop in Hfree as [F1 F2].
  apply negb_true_iff in F1, F2, F3.
  assert (forall k, i <= k < i + len p ->
                    marker_here DEFAULT_DELIMS input k = false) as Hinside.
  { intros k Hk. unfold marker_here.
    replace k with (i + Z.of_nat (Z.to_nat (k - i))) by lia.
    rewrite !(marker_at_offset _ _ _ _ _ Hi Hd)
      by (rewrite length_app; unfold len in *; lia).
    change (start DEFAULT_DELIMS) with "<|start|>".
    change (message DEFAULT_DELIMS) with "<|message|>".
    change (end_ DEFAULT_DELIMS) with "<|end|>".
    rewrite !no_match_inside; try reflexivity; try assumption;
      unfold len in *; lia. }
  assert (marker_here DEFAULT_DELIMS input (i + len p) = true) as Hat.
  { unfold marker_here, len.
    rewrite !(marker_at_offset _ _ _ _ _ Hi Hd)
      by (rewrite length_app; lia).
    rewrite drop_app.
    change (message DEFAULT_DELIMS) with "<|message|>".
    change (end_ DEFAULT_DELIMS) with "<|end|>".
    destruct Hrest as [-> | ->]; rewrite ?orb_true_r; reflexivity. }
  destruct (nearest_marker DEFAULT_DELIMS input i Hi) as (Hr & Hbefore & Hfound).
  assert (findNextDelimiterIndex input i DEFAULT_DELIMS = i + len p) as Hnext.
  { destruct (Z.lt_trichotomy (findNextDelimiterIndex input i DEFAULT_DELIMS)
                (i + len p)) as [Hlt | [Heq | Hgt]]; [|exact Heq|].
    - destruct Hfound as [Hf | [Hf _]]; [|lia].
      rewrite Hinside in Hf by lia. discriminate.
    - rewrite Hbefore in Hat by lia. discriminate. }
  pose proof (Hinside i ltac:(lia)) as Hz. unfold marker_here in Hz.
  apply orb_false_elim in Hz as [Hz E3]. apply orb_false_elim in Hz as [E1 E2].
  unfold tokenize_step. rewrite E1, E2, E3, Hnext. cbv zeta.
  assert (slice input i (i + len p) = p) as Hsl.
  { rewrite slice_inside by lia. rewrite Hd.
    replace (Z.to_nat (i + len p) - Z.to_nat i)%nat with (String.length p)
      by (unfold len; lia).
    apply take_app. }
  rewrite Hsl. destruct (Z.ltb_spec 0 (len p)); [reflexivity | lia].
Qed.

Lemma read_length (ts : list string) :
  read_in_order ts ->
  (List.length ts <= String.length (String.concat EmptyString ts))%nat.
Proof.
  induction 1 as [|t ts Hne _ _ IH]; [cbn; lia|].
  rewrite concat_cons, length_app. cbn [List.length].
  destruct t; [contradiction|]. cbn [String.length]. lia.
Qed.

Lemma loop_reads (ts : list string) :
  read_in_order ts ->
  forall (input : string) (fuel : nat) (i : Z) (tokens : list string),
    0 <= i <= len input ->
    drop (Z.to_nat i) input = String.concat EmptyString ts ->
    (List.length ts < fuel)%nat ->
    tokenize_loop fuel DEFAULT_DELIMS input i tokens = Some (tokens ++ ts)%list.
Proof.
  induction 1 as [|t ts Hne Hstep _ IH]; intros input fuel i tokens Hi Hd Hf.
  - destruct fuel as [|fuel]; [cbn in Hf; lia|].
    pose proof (rest_length _ _ _ Hi Hd) as Hl. cbn in Hl.
    cbn [tokenize_loop]. destruct (Z.ltb_spec i (len input)); [lia|].
    now rewrite List.app_nil_r.
  - destruct fuel as [|fuel]; [cbn in Hf; lia|].
    rewrite concat_cons in Hd.
    pose proof (rest_length _ _ _ Hi Hd) as Hl. rewrite len_app in Hl.
    pose proof (len_nonneg (String.concat EmptyString ts)).
    assert (0 < len t) as Hpos.
    { destruct t; [contradiction|]. rewrite len_cons.
      pose proof (len_nonneg t). lia. }
    rewrite tokenize_loop_step.
    destruct (Z.ltb_spec i (len input)); [|lia].
    rewrite (Hstep input i Hi Hd). cbn [fst snd pushed].
    rewrite IH.
    + now rewrite <- List.app_assoc.
    + lia.
    + unfold len at 1. rewrite (drop_more _ _ _ _ (proj1 Hi) Hd).
      apply drop_app.
    + cbn [List.length] in Hf. lia.
Qed.

End StringRoundTrip.

Section RenderedString.
Context {host : JsonHost}.

Lemma render_chunk_tokens (chunk : HarmonyContentChunk) :
  render_chunk DEFAULT_DELIMS chunk = ["<|message|>"; chunk_payload chunk] /\
  chunk_payload chunk <> EmptyString.
Proof.
  unfold chunk_payload. destruct chunk as [text0 ch | call]; cbn.
  - split; [reflexivity | discriminate].
  - split; [reflexivity|].
    destruct (JSON_stringify (arguments call)); discriminate.
Qed.

Lemma read_chunks (chunks : list HarmonyContentChunk) (ts : list string) :
  read_in_order ("<|end|>" :: ts) ->
  Forall (fun chunk => marker_free (chunk_payload chunk) = true) chunks ->
  read_in_order (flat_map (render_chunk DEFAULT_DELIMS) chunks ++ "<|end|>" :: ts)
  /\ (String.prefix "<|message|>"
        (String.concat EmptyString
           (flat_map (render_chunk DEFAULT_DELIMS) chunks ++ "<|end|>" :: ts))
      = true \/
      String.prefix "<|end|>"
        (String.concat EmptyString
           (flat_map (render_chunk DEFAULT_DELIMS) chunks ++ "<|end|>" :: ts))
      = true).
Proof.
  intros Hend Hfree. induction chunks as [|c chunks IH].
  - cbn [flat_map List.app]. split; [exact Hend|].
    right. rewrite concat_cons. apply prefix_app.
  - inversion Hfree as [|? ? Hc Hcs]; subst.
    destruct (IH Hcs) as [Hread Hbegin].
    destruct (render_chunk_tokens c) as [Htok Hne].
    cbn [flat_map]. rewrite Htok. cbn [List.app].
    split.
    + apply read_cons; [discriminate | |].
      * intros input i Hi Hd. exact (proj1 (step_at_marker input i _ Hi) Hd).
      * apply read_cons; [exact Hne | | exact Hread].
        intros input i Hi Hd. exact (step_at_payload input i _ _ Hi Hne Hc Hbegin Hd).
    + left. rewrite concat_cons. apply prefix_app.
Qed.

Lemma read_messages (ms : list HarmonyMessage) :
  Forall (fun m => isHarmonyRole (role m) = true) ms ->
  Forall (fun m =>
            Forall (fun chunk => marker_free (chunk_payload chunk) = true)
              (content m)) ms ->
  read_in_order (flat_map (render_message DEFAULT_DELIMS) ms).
Proof.
  induction ms as [|m ms IH]; intros Hr Hf; [constructor|].
  inversion Hr as [|? ? Hr1 Hr2]; inversion Hf as [|? ? Hf1 Hf2]; subst.
  specialize (IH Hr2 Hf2).
  cbn [flat_map]. unfold render_message at 1.
  change (start DEFAULT_DELIMS) with "<|start|>".
  change (end_ DEFAULT_DELIMS) with "<|end|>".
  cbn [List.app]. rewrite <- List.app_assoc. cbn [List.app].
  assert (read_in_order ("<|end|>" :: flat_map (render_message DEFAULT_DELIMS) ms))
    as Hend.
  { apply read_cons; [discriminate | | exact IH].
    intros input i Hi Hd. exact (proj2 (step_at_marker input i _ Hi) Hd). }
  destruct (read_chunks (content m) _ Hend Hf1) as [Hread Hbegin].
  apply read_cons; [discriminate | | exact Hread].
  intros input i Hi Hd.
  refine (step_at_start input i _ _ Hi Hr1 _ Hd).
  destruct Hbegin as [Hp|Hp]; apply prefix_split in Hp; rewrite Hp; reflexivity.
Qed.

(** X16: a conversation of supported roles and channels, whose tool
    arguments round-trip through JSON, whose tool namespaces and names
    hold no [":"] and whose payload tokens hold no marker, is tokenized
    from its rendered tokens joined into one string to exactly those
    tokens, and [parseConversationFromString] returns it unchanged
    (default delimiters). *)
Theorem rendered_string_round_trip (conversation : HarmonyConversation) :
  conversation_supported conversation ->
  tools_colon_free conversation ->
  payloads_marker_free conversation ->
  tokenizeCompletionString
    (String.concat EmptyString (renderConversation conversation None)) None
  = Some (renderConversation conversation None) /\
  parseConversationFromString
    (String.concat EmptyString (renderConversation conversation None)) None
  = Some (Normal conversation).
Proof.
  intros Hs Hc Hf.
  assert (read_in_order (renderConversation conversation None)) as Hread.
  { unfold renderConversation. cbn [options_delimiters delims_or_default].
    apply read_messages; [|exact Hf].
    unfold conversation_supported in Hs.
    eapply Forall_impl; [|exact Hs]. now intros m [Hr _]. }
  assert (tokenizeCompletionString
            (String.concat EmptyString (renderConversation conversation None)) None
          = Some (renderConversation conversation None)) as Htok.
  { unfold tokenizeCompletionString. cbn [delims_or_default].
    rewrite (loop_reads _ Hread); [reflexivity | | reflexivity |].
    - pose proof (len_nonneg
                    (String.concat EmptyString
                       (renderConversation conversation None))). lia.
    - pose proof (read_length _ Hread). lia. }
  split; [exact Htok|].
  unfold parseConversationFromString. rewrite Htok. f_equal.
  unfold parseTokens, renderConversation. cbn [options_delimiters].
  destruct (push_messages None eq_refl (messages conversation) createParser Hs Hc)
    as (st & E & P).
  rewrite E, finish_pending, P. now destruct conversation.
Qed.

End RenderedString.

Lemma rendered_string_round_trip_witness :
  tokenizeCompletionString
    (String.concat EmptyString (renderConversation sample_conversation None)) None
  = Some (renderConversation sample_conversation None) /\
  parseConversationFromString
    (String.concat EmptyString (renderConversation sample_conversation None)) None
  = Some (Normal sample_conversation).
Proof.
  apply (rendered_string_round_trip sample_conversation).
  - repeat constructor. exists "true". split; reflexivity.
  - repeat constructor.
  - repeat constructor.
Defined.

Section Concatenation.
Context {host : JsonHost}.

Lemma push_after_closed (closed : list HarmonyMessage) (state : ParseState)
  (token : string) (given : option HarmonyDelimiters) :
  push (after_closed closed state) token given
  = (after_closed closed (fst (push state token given)),
     snd (push state token given)).
Proof.
  destruct state as [msgs [cur|] channel expecting];
    unfold push, after_closed;
    cbn [state_messages current lastStreamingChannel expectingPayload];
    repeat match goal with
           | |- context [if ?b then _ else _] => destruct b
           | |- context [match JSON_parse ?a with _ => _ end] =>
               destruct (JSON_parse a)
           end;
    cbn [fst snd state_messages current lastStreamingChannel expectingPayload];
    rewrite <- ?List.app_assoc; reflexivity.
Qed.

Lemma push_all_after_closed (closed : list HarmonyMessage) (tokens : list string)
  (given : option HarmonyDelimiters) :
  forall state,
    push_all (after_closed closed state) tokens given
    = (after_closed closed (fst (push_all state tokens given)),
       snd (push_all state tokens given)).
Proof.
  induction tokens as [|t tokens IH]; intros state; [reflexivity|].
  cbn [push_all]. rewrite push_after_closed.
  destruct (push state t given) as [s1 [e|]]; cbn [fst snd];
    [reflexivity | apply IH].
Qed.

Lemma pending_after_closed (closed : list HarmonyMessage) (state : ParseState) :
  pending (after_closed closed state) = (closed ++ pending state)%list.
Proof.
  unfold pending, after_closed. cbn [state_messages current].
  destruct (current state); [now rewrite List.app_assoc | reflexivity].
Qed.

(** X17: parsing distributes over concatenation at a message start:
    when a first token list parses to a conversation and a second one
    begins with a start token of a supported role, the two lists
    together parse to the messages of the first followed by those of the
    second, or fail with the error of the second. *)
Theorem parseTokens_concatenates (tokens1 tokens2 : list string)
  (token : string) (given : option HarmonyDelimiters)
  (c1 : HarmonyConversation) :
  parseTokens tokens1 given = Normal c1 ->
  startsWith token (start (delims_or_default given)) 0 = true ->
  isHarmonyRole (slice_from token (len (start (delims_or_default given))))
  = true ->
  parseTokens (tokens1 ++ token :: tokens2) given =
  match parseTokens (token :: tokens2) given with
  | Normal c2 => Normal {| messages := (messages c1 ++ messages c2)%list |}
  | Throw e => Throw e
  end.
Proof.
  intros H1 Hs Hr. unfold parseTokens in *.
  rewrite push_all_app.
  destruct (push_all createParser tokens1 given) as [st [e|]];
    [discriminate|].
  assert (c1 = {| messages := pending st |}) as ->
      by (rewrite <- finish_pending; congruence).
  clear H1. cbn [messages push_all].
  assert (forall s,
             push s token given =
             (after_closed (pending s)
                {| state_messages := [];
                   current :=
                     Some {| role :=
                               slice_from token
                                 (len (start (delims_or_default given)));
                             content := [] |};
                   lastStreamingChannel := None;
                   expectingPayload := Some false |}, None)) as Hstart.
  { intros s. unfold push, after_closed, pending. rewrite Hs, Hr.
    cbn [negb state_messages current lastStreamingChannel expectingPayload].
    rewrite List.app_nil_r. reflexivity. }
  rewrite (Hstart st), (Hstart createParser).
  rewrite !push_all_after_closed.
  destruct (push_all _ tokens2 given) as [s2 [e|]]; cbn [fst snd];
    [reflexivity|].
  rewrite !finish_pending, !pending_after_closed. reflexivity.
Qed.

End Concatenation.

Lemma parseTokens_concatenates_witness :
  parseTokens
    (["<|start|>user"; "<|message|>"; "text:message:Hi"]
     ++ "<|start|>assistant" :: ["<|message|>"; "text:message:Hello"; "<|end|>"])
    None
  = Normal
      {| messages :=
           [ {| role := "user"; content := [TextChunk "Hi" "message"] |};
             {| role := "assistant";
                content := [TextChunk "Hello" "message"] |} ] |}.
Proof.
  exact (parseTokens_concatenates
           ["<|start|>user"; "<|message|>"; "text:message:Hi"]
           ["<|message|>"; "text:message:Hello"; "<|end|>"]
           "<|start|>assistant" None
           {| messages :=
                [ {| role := "user"; content := [TextChunk "Hi" "message"] |} ] |}
           eq_refl eq_refl eq_refl).
Defined.

(** ** Fallback of the final-content extractor *)

Lemma find_at (p s : string) (k : nat) :
  String.prefix p (drop k s) = true ->
  (forall j, (j < k)%nat -> String.prefix p (drop j s) = false) ->
  find p s = Some k.
Proof.
  intros Hk Hj. destruct (find p s) as [n|] eqn:E.
  - destruct (find_first _ _ _ E) as [Hn Hlt].
    destruct (Nat.lt_trichotomy n k) as [L|[->|L]]; [|reflexivity|].
    + rewrite (Hj n L) in Hn. discriminate.
    + rewrite (Hlt k L) in Hk. discriminate.
  - rewrite (find_none_everywhere _ _ E k) in Hk. discriminate.
Qed.

Lemma find_last_nowhere (p s : string) :
  (forall j, String.prefix p (drop j s) = false) -> find_last p s = None.
Proof.
  induction s as [|c s IH]; intros H; cbn [find_last].
  - pose proof (H O) as H0. cbn [drop] in H0. now rewrite H0.
  - rewrite IH by (intros j; exact (H (S j))).
    pose proof (H O) as H0. cbn [drop] in H0. now rewrite H0.
Qed.

Lemma find_last_at (p a s : string) :
  String.prefix p s = true ->
  (forall j, String.prefix p (drop (S j) s) = false) ->
  find_last p (a ++ s) = Some (String.length a).
Proof.
  intros H0 Hj.
  assert (find_last p s = Some O) as Hs.
  { destruct s as [|c s]; cbn [find_last].
    - now rewrite H0.
    - rewrite find_last_nowhere by (intros j; exact (Hj j)). now rewrite H0. }
  induction a as [|c a IH]; cbn [append String.length find_last].
  - exact Hs.
  - now rewrite IH.
Qed.

(** A pattern that begins with [c] matches at no index inside a text
    that is free of [c]. *)
Lemma no_match_in_text (c : ascii) (q t r : string) (j : nat) :
  all_chars (fun x => negb (Ascii.eqb x c)) t = true ->
  (j < String.length t)%nat ->
  String.prefix (String c q) (drop j (t ++ r)) = false.
Proof.
  revert j. induction t as [|z t IH]; intros j Ht Hj; cbn [String.length] in Hj.
  - lia.
  - cbn [all_chars] in Ht. apply andb_prop in Ht as [Hz Ht].
    destruct j as [|j]; cbn [append drop].
    + rewrite prefix_cons. apply negb_true_iff in Hz.
      now rewrite Ascii.eqb_sym, Hz.
    + apply IH; [exact Ht | lia].
Qed.

Section LastBody.
Variable channel : string.
Hypothesis channel_plain :
  all_chars (fun x => negb (Ascii.eqb x "<")) channel = true.
Variables input pre gap body rest : string.
Hypothesis shape : last_body channel input pre gap body rest.
Variable h : string.
Hypothesis h_head : h = body_head channel pre gap.

Lemma input_split : input = h ++ body ++ rest.
Proof.
  destruct shape as (-> & _). rewrite h_head. unfold body_head, channel_tag.
  now rewrite !app_assoc.
Qed.

Lemma tag_plain :
  all_chars (fun x => negb (Ascii.eqb x "<")) ("|channel|>" ++ channel) = true.
Proof. cbn. exact channel_plain. Qed.

Lemma last_tag : lastIndexOf input (channel_tag channel) = len pre.
Proof.
  destruct shape as (-> & Hlater & _).
  unfold lastIndexOf. rewrite find_last_at; [reflexivity | apply prefix_app |].
  intros j. set (t := "|channel|>" ++ channel).
  change (String.prefix (String "<" t)
            (drop j (t ++ gap ++ "<|message|>" ++ body ++ rest)) = false).
  destruct (Nat.lt_ge_cases j (String.length t)) as [L|G].
  - apply no_match_in_text; [exact tag_plain | exact L].
  - replace j with (String.length t + (j - String.length t))%nat by lia.
    rewrite drop_app_plus.
    unfold includes in Hlater.
    destruct (find ("<|channel|>" ++ channel)
                (gap ++ "<|message|>" ++ body ++ rest)) eqn:E; [discriminate|].
    exact (find_none_everywhere _ _ E _).
Qed.

Lemma first_message :
  indexOf input "<|message|>" (len pre)
  = len pre + len (channel_tag channel) + len gap.
Proof.
  destruct shape as (-> & _ & Hgap & _). fold (channel_tag channel).
  unfold indexOf.
  rewrite clamp_inside
    by (rewrite len_app; pose proof (len_nonneg pre);
        pose proof
          (len_nonneg
             (channel_tag channel ++ gap ++ "<|message|>" ++ body ++ rest));
        lia).
  unfold len at 1. rewrite Nat2Z.id, drop_app.
  rewrite (find_at _ _
             (String.length (channel_tag channel) + String.length gap)).
  - unfold len. lia.
  - rewrite drop_app_plus.
    replace (String.length gap) with (String.length gap + 0)%nat by lia.
    rewrite drop_app_plus. apply prefix_app.
  - intros j Hj.
    destruct (Nat.lt_ge_cases j (String.length (channel_tag channel)))
      as [L|G].
    + destruct j as [|j]; [reflexivity|].
      set (t := "|channel|>" ++ channel) in *.
      change (String.prefix (String "<" "|message|>")
                (drop j (t ++ gap ++ "<|message|>" ++ body ++ rest)) = false).
      apply no_match_in_text; [exact tag_plain|].
      change (S j < S (String.length t))%nat in L. lia.
    + replace j
        with (String.length (channel_tag channel)
              + (j - String.length (channel_tag channel)))%nat by lia.
      rewrite drop_app_plus.
      apply (no_match_inside "<" "|message|>");
        [reflexivity | reflexivity | exact Hgap | lia].
Qed.

Lemma head_length :
  len h
  = len pre + len (channel_tag channel) + len gap + len "<|message|>".
Proof. rewrite h_head. unfold body_head. rewrite !len_app. lia. Qed.

Lemma rest_begins :
  rest = EmptyString \/ first_char rest = Some "<"%char.
Proof.
  destruct shape as (_ & _ & _ & _ & Hr). unfold terminated_here in Hr.
  apply orb_prop in Hr as [Hr|Hr].
  - left. apply len_zero. lia.
  - right. destruct rest as [|z r]; [discriminate|].
    cbn [existsb body_terminators] in Hr. rewrite !prefix_cons in Hr.
    destruct (Ascii.eqb_spec "<"%char z) as [<-|N]; [reflexivity|].
    cbn in Hr. discriminate.
Qed.

(** Where a terminator is found behind the body. *)
Lemma terminator_index (q : string) :
  all_chars (fun x => negb (Ascii.eqb x "<")) q = true ->
  includes body (String "<" q) = false ->
  (indexOf input (String "<" q) (len h) = -1 \/
   len h + len body <= indexOf input (String "<" q) (len h)) /\
  (String.prefix (String "<" q) rest = true ->
   indexOf input (String "<" q) (len h) = len h + len body).
Proof.
  intros Hq Hb. rewrite input_split. unfold indexOf.
  rewrite clamp_inside
    by (rewrite len_app; pose proof (len_nonneg h);
        pose proof (len_nonneg (body ++ rest)); lia).
  replace (Z.to_nat (len h)) with (String.length h)
    by (unfold len; lia).
  rewrite drop_app.
  assert (forall j, (j < String.length body)%nat ->
                    String.prefix (String "<" q) (drop j (body ++ rest)) = false)
    as Hin.
  { intros j Hj. destruct rest_begins as [->|Hr].
    - rewrite app_empty_r. unfold includes in Hb.
      destruct (find (String "<" q) body) eqn:E; [discriminate|].
      exact (find_none_everywhere _ _ E j).
    - now apply (no_match_inside "<" q). }
  split.
  - destruct (find (String "<" q) (body ++ rest)) as [n|] eqn:E;
      [right | now left].
    destruct (find_first _ _ _ E) as [Hn _].
    destruct (Nat.lt_ge_cases n (String.length body)) as [L|G].
    + rewrite (Hin n L) in Hn. discriminate.
    + unfold len. lia.
  - intros Hp. rewrite (find_at _ _ (String.length body)).
    + unfold len. lia.
    + now rewrite drop_app.
    + exact Hin.
Qed.

Lemma body_slice : slice input (len h) (len h + len body) = body.
Proof. rewrite input_split. apply slice_app_mid. Qed.

Lemma safeExtractChannel_last_body :
  safeExtractChannel input channel = cleaned body.
Proof.
  pose proof (len_nonneg pre) as Hpre.
  pose proof (len_nonneg (channel_tag channel)) as Htag.
  pose proof (len_nonneg gap) as Hgap.
  pose proof (len_nonneg body) as Hbody.
  pose proof (len_nonneg rest) as Hrest.
  unfold safeExtractChannel. fold (channel_tag channel). rewrite last_tag.
  replace (len pre <? 0) with false by (symmetry; apply Z.ltb_ge; lia).
  cbv zeta. rewrite first_message.
  replace (len pre + len (channel_tag channel) + len gap <? 0) with false
    by (symmetry; apply Z.ltb_ge; lia).
  rewrite <- head_length.
  destruct shape as (_ & _ & _ & Hb & Hr).
  unfold unterminated in Hb. cbn [forallb body_terminators] in Hb.
  apply andb_prop in Hb as [He Hb]. apply andb_prop in Hb as [Hs Hb].
  apply andb_prop in Hb as [Hc _].
  apply negb_true_iff in He, Hs, Hc.
  destruct (terminator_index "|end|>" eq_refl He) as [Ie Je].
  destruct (terminator_index "|start|>" eq_refl Hs) as [Is Js].
  destruct (terminator_index "|channel|>" eq_refl Hc) as [Ic Jc].
  assert (len input = len h + len body + len rest) as Hl
      by (rewrite input_split, !len_app; lia).
  unfold cleaned. do 3 f_equal.
  rewrite <- body_slice at 1. f_equal.
  pose proof (len_nonneg h) as Hhead.
  assert (len rest = 0 \/
          indexOf input "<|end|>" (len h) = len h + len body \/
          indexOf input "<|start|>" (len h) = len h + len body \/
          indexOf input "<|channel|>" (len h) = len h + len body)
    as Hstop.
  { unfold terminated_here in Hr. cbn [existsb body_terminators] in Hr.
    apply orb_prop in Hr as [Hr|Hr]; [left; lia | right].
    apply orb_prop in Hr as [Hr|Hr]; [left; now apply Je | right].
    apply orb_prop in Hr as [Hr|Hr]; [left; now apply Js | right].
    apply orb_prop in Hr as [Hr|Hr]; [now apply Jc | discriminate]. }
  rewrite Hl. clear Je Js Jc.
  repeat match goal with
         | |- context [?x >=? ?y] => destruct (Z.geb_spec x y)
         end; lia.
Qed.

Lemma last_body_detected : isHarmonyFormat (JsString input) None = true.
Proof.
  assert (contains input CHANNEL_MARKER) as Hc.
  { destruct shape as (-> & _).
    exists pre, (channel ++ gap ++ "<|message|>" ++ body ++ rest).
    unfold CHANNEL_MARKER. now rewrite !app_assoc. }
  assert (contains input "<|message|>") as Hm.
  { destruct shape as (-> & _).
    exists (pre ++ ("<|channel|>" ++ channel) ++ gap), (body ++ rest).
    now rewrite !app_assoc. }
  apply includes_contains in Hc, Hm.
  cbn [isHarmonyFormat delims_or_default].
  destruct (Z.eqb_spec (len input) 0) as [E|_].
  - apply len_zero in E. rewrite E in Hc. discriminate.
  - change (message DEFAULT_DELIMS) with "<|message|>".
    now rewrite Hc, Hm, orb_true_r.
Qed.

End LastBody.

Lemma marker_at_none (s : string) :
  String.prefix "<|" s = false -> marker_at s = None.
Proof.
  unfold marker_at. destruct s as [|a [|b s]]; [reflexivity | |].
  - rewrite !prefix_cons. now destruct (Ascii.eqb "<" a).
  - rewrite !prefix_cons, prefix_nil.
    destruct (Ascii.eqb "<" a), (Ascii.eqb "|" b);
      cbn [andb]; try discriminate; reflexivity.
Qed.

Lemma strip_markers_plain (fuel : nat) (s : string) :
  (forall j, String.prefix "<|" (drop j s) = false) ->
  strip_markers_from fuel s = s.
Proof.
  revert s. induction fuel as [|fuel IH]; intros s H; [reflexivity|].
  destruct s as [|c s]; [reflexivity|]. cbn [strip_markers_from].
  rewrite marker_at_none by exact (H O).
  f_equal. apply IH. intros j. exact (H (S j)).
Qed.

Lemma strip_partial_plain (s : string) :
  (forall j, String.prefix "<|" (drop j s) = false) ->
  strip_partial_marker s = s.
Proof.
  induction s as [|c s IH]; intros H; [reflexivity|].
  cbn [strip_partial_marker].
  pose proof (H O) as H0. cbn [drop] in H0. rewrite H0. cbn [andb].
  f_equal. apply IH. intros j. exact (H (S j)).
Qed.

(** A body that holds no ["<|"] is only trimmed by the clean-up. *)
Lemma cleaned_plain (body : string) :
  includes body "<|" = false -> cleaned body = trim body.
Proof.
  unfold includes. intros H.
  destruct (find "<|" body) eqn:E; [discriminate|].
  pose proof (find_none_everywhere _ _ E) as Hn.
  unfold cleaned, strip_markers.
  now rewrite strip_markers_plain, strip_partial_plain.
Qed.

Lemma undetected_without_channel (input : string) :
  includes input CHANNEL_MARKER = false ->
  isHarmonyFormat (JsString input) None = false.
Proof.
  intros H. cbn [isHarmonyFormat]. rewrite H.
  destruct (len input =? 0); [reflexivity|].
  now rewrite orb_false_r, andb_false_r.
Qed.



